(** * Noodlification of segment automata

    A shallow embedding of [src/nfa/noodlify.cc] (libmata): the function
    [SegNfa::noodlify], its helper [get_num_of_permutations] and the two
    overloads of [SegNfa::noodlify_for_equation], together with the text of
    the alternating automaton that [noodlify] streams to [std::cerr].

    The NFA library itself ([mata/nfa.hh], [mata/noodlify.hh]) is not part of
    the file under study.  Its data types are modelled from the way the code
    uses them, and its operations ([trim], [Segmentation], [concatenate], ...)
    are parameters of the sections below. *)

From stdpp Require Import gmap strings list fin_maps pretty.

Set Default Proof Using "Type".

(** ** Data model *)

(** [State] and [Symbol] are unsigned integers that the code only compares,
    prints, counts up ([newSymbol++]) and uses as map keys.  Their
    declarations are in the library; they are natural numbers here. *)
Abbreviation State := N (only parsing).
Abbreviation Symbol := N (only parsing).

(** [StateSet] is an ordered vector of states; the code iterates over it,
    assigns [{ s }] to it and calls [count], [push_back] and [remove]. *)
Abbreviation StateSet := (list N) (only parsing).

(** [Trans]: one transition, here always an epsilon transition of the
    segmentation ([tran.src], [tran.tgt]). *)
Record Trans := mkTrans { src : State; symb : Symbol; tgt : State }.

Abbreviation TransSequence := (list Trans) (only parsing).

(** [TransSymbolStates]: the targets of one state under one symbol
    ([tran.symbol], [tran.states_to]). *)
Record TransSymbolStates := mkTransSymbolStates
  { symbol : Symbol; states_to : StateSet }.

(** [Nfa]: the members the code reads and assigns directly. *)
Record Nfa := mkNfa
  { initialstates : StateSet;
    finalstates : StateSet;
    transitionrelation : list (list TransSymbolStates) }.

(** [aut.initialstates = x] and [aut.finalstates = x] on a copy. *)
Definition set_initialstates (aut : Nfa) (x : StateSet) : Nfa :=
  {| initialstates := x;
     finalstates := finalstates aut;
     transitionrelation := transitionrelation aut |}.

Definition set_finalstates (aut : Nfa) (x : StateSet) : Nfa :=
  {| initialstates := initialstates aut;
     finalstates := x;
     transitionrelation := transitionrelation aut |}.

(** A noodle is a vector of shared pointers to automata that are never
    mutated after their creation, so it is modelled by the automata. *)
Abbreviation Noodle := (list Nfa) (only parsing).
Abbreviation NoodleSequence := (list (list Nfa)) (only parsing).

(** [size_t] arithmetic wraps around at 2^64. *)
Definition size_t_modulus : N := 2 ^ 64.
Definition wrap_size_t (x : N) : N := x mod size_t_modulus.

(** [std::endl] on the text sink. *)
Definition endl : string := String (Ascii.ascii_of_nat 10) EmptyString.

(** The loops that print a separator before every element but the first
    ([isFirst] flags in the source). *)
Fixpoint print_separated {A : Type} (sep : string) (item : A → string)
    (l : list A) (isFirst : bool) : string :=
  match l with
  | [] => ""
  | x :: rest =>
      (if isFirst then "" else sep) +:+ item x +:+ print_separated sep item rest false
  end.

(** The loops that print every element with no separator. *)
Definition print_all {A : Type} (item : A → string) (l : list A) : string :=
  foldr (λ x rest, item x +:+ rest) "" l.

(** [for (size_t i = 0; i < n; ++i)]: the values of [i], in order. *)
Definition index_range (n : N) : list N := N.of_nat <$> seq 0 (N.to_nat n).

(** [v.back()] of a vector. *)
Definition back {A : Type} (d : A) (v : list A) : A := default d (last v).

(** Modelled from the spec: [StateSet::remove(k)] of the ordered-vector
    library, which is not in the file; the spec reads the removals as a set
    difference, so the key is taken out and a set without it is unchanged. *)
Definition StateSet_remove (s : StateSet) (k : State) : StateSet :=
  filter (λ x, x ≠ k) s.

(** Modelled from the spec: [StateSet::count(k)], 1 when [k] is in the set. *)
Definition StateSet_count (s : StateSet) (k : State) : nat :=
  if decide (k ∈ s) then 1 else 0.

(** The lambda [stateSetMinus] (lines 185-193). *)
Fixpoint stateSetMinus (lhs rhs : StateSet) : StateSet :=
  match lhs with
  | [] => []
  | s :: lhs' =>
      if (StateSet_count rhs s =? 0)%nat
      then s :: stateSetMinus lhs' rhs
      else stateSetMinus lhs' rhs
  end.

(** [__builtin_clz] on a 32-bit [unsigned int]: the number of zero bits above
    the highest set bit, counted from bit 31 down.  The argument is converted
    to 32 bits.  (For 0 the builtin has no defined result; the scan gives 32.) *)
Fixpoint count_leading_zeros (width : nat) (x : N) : N :=
  match width with
  | O => 0
  | S w => if N.testbit x (N.of_nat w) then 0 else 1 + count_leading_zeros w x
  end.

Definition builtin_clz (x : N) : N := count_leading_zeros 32 (x mod 2 ^ 32).

(** [std::bitset<32>(v).to_string()]: 32 characters, the character at
    position 0 is bit 31 and the character at position 31 is bit 0. *)
Definition bit_char (b : bool) : Ascii.ascii :=
  if b then Ascii.ascii_of_nat 49 else Ascii.ascii_of_nat 48.

Definition bitset32_to_string (v : N) : string :=
  String.string_of_list_ascii
    ((λ pos, bit_char (N.testbit v (N.of_nat (31 - pos)))) <$> seq 0 32).

(** Keys of [segments_one_initial_final]. *)
Abbreviation SegmentKey := (N * N)%type (only parsing).

(** The locals of the loop over the segments after the first (lines 136-154). *)
Record SegmentLoopState := mkSegmentLoopState
  { segmentReachableStates : list StateSet;
    initialStatesNoodles : list (list State);
    allSegmentsInitialStates : list State;
    initStateToPreviousNonFinalStates : gmap N StateSet }.

(** The captured locals of the lambda [remapSymbol]: the table
    [symbolRemapping] and the counter [newSymbol]. *)
Record RemapState := mkRemapState
  { symbolRemapping : gmap N N;
    newSymbol : Symbol }.

(** ** A small NFA library and inputs for the examples

    The examples below run the definitions on concrete automata.  They use
    the following stand-ins for the library: the states of an automaton are
    the indices of [transitionrelation], reachability is computed by
    iteration, and trimming keeps an automaton that has a reachable final
    state and replaces any other by the automaton without states. *)
Definition ex_get_num_of_states (aut : Nfa) : N :=
  N.of_nat (length (transitionrelation aut)).

Definition ex_get_transitions_from (aut : Nfa) (s : State)
    : list TransSymbolStates :=
  default [] (transitionrelation aut !! N.to_nat s).

Definition ex_successors (aut : Nfa) (s : State) : list State :=
  concat (states_to <$> ex_get_transitions_from aut s).

Fixpoint ex_reach (fuel : nat) (aut : Nfa) (seen : list State) : list State :=
  match fuel with
  | O => seen
  | S fuel' => ex_reach fuel' aut (list_union seen (seen ≫= ex_successors aut))
  end.

Definition ex_get_reachable_states (aut : Nfa) : StateSet :=
  let seen := ex_reach (length (transitionrelation aut)) aut (initialstates aut) in
  filter (λ s, s ∈ seen) (index_range (ex_get_num_of_states aut)).

Definition ex_trim (aut : Nfa) : Nfa :=
  let reachable := ex_get_reachable_states aut in
  if bool_decide (Exists (λ f, f ∈ reachable) (finalstates aut))
  then aut
  else {| initialstates := []; finalstates := []; transitionrelation := [] |}.

Definition ex_is_lang_empty (aut : Nfa) : bool :=
  (ex_get_num_of_states (ex_trim aut) =? 0)%N.

(** The visiting order of an unordered map in the examples. *)
Definition ex_unordered_iteration (V : Type) (m : gmap N V) : list (N * V) :=
  map_to_list m.

(** An automaton for [x . y] with the epsilon transition 1 -100-> 2 between
    the two variables: 0 -97-> 1 before it, 2 -98-> 3 and 2 -97-> 3 after it;
    state 0 is initial and state 3 is final. *)
Definition ex_aut : Nfa :=
  {| initialstates := [0%N];
     finalstates := [3%N];
     transitionrelation :=
       [ [ {| symbol := 97; states_to := [1%N] |} ];
         [ {| symbol := 100; states_to := [2%N] |} ];
         [ {| symbol := 97; states_to := [3%N] |};
           {| symbol := 98; states_to := [3%N] |} ];
         [] ] |}.

(** Its two segments and its epsilon transitions by depth. *)
Definition ex_segment0 : Nfa :=
  {| initialstates := [0%N];
     finalstates := [1%N];
     transitionrelation :=
       [ [ {| symbol := 97; states_to := [1%N] |} ]; []; []; [] ] |}.

Definition ex_segment1 : Nfa :=
  {| initialstates := [2%N];
     finalstates := [3%N];
     transitionrelation :=
       [ []; [];
         [ {| symbol := 98; states_to := [3%N] |};
           {| symbol := 97; states_to := [3%N] |} ];
         [] ] |}.

Definition ex_epsilon_depths : gmap N (list Trans) :=
  {[ 0%N := [ {| src := 1; symb := 100; tgt := 2 |} ] ]}.

(** An automaton without epsilon transitions, 0 -97-> 1. *)
Definition ex_plain : Nfa :=
  {| initialstates := [0%N];
     finalstates := [1%N];
     transitionrelation := [ [ {| symbol := 97; states_to := [1%N] |} ]; [] ] |}.

(** An automaton for the concatenation of 65 variables, each over the
    language of the two one-letter words 97 and 98: variable [d] enters at
    the state [3d] and leaves at [3d + 1] (after 97) or [3d + 2] (after 98),
    and both of these have an epsilon transition 100 to [3d + 3], the entry
    of the next variable.  State 0 is initial, 193 and 194 are final. *)
Definition ex_wide_transitions (d : nat) : list (list TransSymbolStates) :=
  [ [ {| symbol := 97; states_to := [N.of_nat (3 * d + 1)] |};
      {| symbol := 98; states_to := [N.of_nat (3 * d + 2)] |} ];
    [];
    [] ].

Definition ex_wide_epsilon_transitions (d : nat) : list (list TransSymbolStates) :=
  [ [ {| symbol := 97; states_to := [N.of_nat (3 * d + 1)] |};
      {| symbol := 98; states_to := [N.of_nat (3 * d + 2)] |} ];
    [ {| symbol := 100; states_to := [N.of_nat (3 * d + 3)] |} ];
    [ {| symbol := 100; states_to := [N.of_nat (3 * d + 3)] |} ] ].

Definition ex_wide_aut : Nfa :=
  {| initialstates := [0%N];
     finalstates := [193%N; 194%N];
     transitionrelation :=
       concat (ex_wide_epsilon_transitions <$> seq 0 64) ++ ex_wide_transitions 64 |}.

(** Its 65 segments, and its 64 depths of two epsilon transitions each. *)
Definition ex_wide_segment (d : nat) : Nfa :=
  {| initialstates := [N.of_nat (3 * d)];
     finalstates := [N.of_nat (3 * d + 1); N.of_nat (3 * d + 2)];
     transitionrelation :=
       replicate (3 * d) [] ++ ex_wide_transitions d
       ++ replicate (192 - 3 * d) [] |}.

Definition ex_wide_segments : list Nfa := ex_wide_segment <$> seq 0 65.

Definition ex_wide_depth (d : nat) : N * list Trans :=
  (N.of_nat d,
   [ {| src := N.of_nat (3 * d + 1); symb := 100; tgt := N.of_nat (3 * d + 3) |};
     {| src := N.of_nat (3 * d + 2); symb := 100; tgt := N.of_nat (3 * d + 3) |} ]).

Definition ex_wide_epsilon_depths : gmap N (list Trans) :=
  list_to_map (ex_wide_depth <$> seq 0 64).

(** The segmentation of the example automata; an automaton without epsilon
    transitions is its own and only segment. *)
#[global] Instance TransSymbolStates_eq_dec : EqDecision TransSymbolStates.
Proof. solve_decision. Defined.

#[global] Instance Nfa_eq_dec : EqDecision Nfa.
Proof. solve_decision. Defined.

Definition ex_get_segments_raw (aut : Nfa) (epsilon : Symbol) : list Nfa :=
  if decide (aut = ex_aut) then [ex_segment0; ex_segment1]
  else if decide (aut = ex_wide_aut) then ex_wide_segments
  else [aut].

Definition ex_get_epsilon_depths (aut : Nfa) (epsilon : Symbol)
    : gmap N (list Trans) :=
  if decide (aut = ex_aut) then ex_epsilon_depths
  else if decide (aut = ex_wide_aut) then ex_wide_epsilon_depths
  else ∅.

(** Stand-ins for the rest of the library, for a left side of one automaton
    and a right side that shares no word with it: the alphabet is the list
    of the symbols, the next value is one more than the largest of them, and
    the product has no state. *)
Definition ex_symbols (aut : Nfa) : list Symbol :=
  symbol <$> concat (transitionrelation aut).

Definition ex_from_nfas (automata : list Nfa) : list Symbol :=
  remove_dups (automata ≫= ex_symbols).

Definition ex_add_symbols_from (alphabet : list Symbol) (aut : Nfa)
    : list Symbol :=
  remove_dups (alphabet ++ ex_symbols aut).

Definition ex_get_next_value (alphabet : list Symbol) : Symbol * list Symbol :=
  (N.succ (foldr N.max 0%N alphabet), alphabet).

Definition ex_concatenate (lhs rhs : Nfa) (epsilon : Symbol) : Nfa := lhs.

Definition ex_empty_intersection (lhs rhs : Nfa) (epsilon : Symbol) : Nfa :=
  {| initialstates := []; finalstates := []; transitionrelation := [] |}.

(** An automaton for the word 98, 0 -98-> 1. *)
Definition ex_other : Nfa :=
  {| initialstates := [0%N];
     finalstates := [1%N];
     transitionrelation := [ [ {| symbol := 98; states_to := [1%N] |} ]; [] ] |}.

(** Two depths for three segments: two epsilon transitions into the state 3
    at depth 0 and three epsilon transitions into the states 6 and 7 at
    depth 1, six combinations in all. *)
Definition ex_two_depths : gmap N (list Trans) :=
  {[ 0%N := [ {| src := 1; symb := 100; tgt := 3 |};
              {| src := 2; symb := 100; tgt := 3 |} ];
     1%N := [ {| src := 4; symb := 100; tgt := 6 |};
              {| src := 5; symb := 100; tgt := 6 |};
              {| src := 5; symb := 100; tgt := 7 |} ] ]}.

Section Noodlify.

(** *** The NFA library, as used by [noodlify] *)
Variable trim : Nfa → Nfa.
Variable get_num_of_states : Nfa → N.
Variable get_reachable_states : Nfa → StateSet.
Variable get_transitions_from : Nfa → State → list TransSymbolStates.

(** The alphabet ([EnumAlphabet &alph]); the code only asks for the number of
    its symbols. *)
Variable EnumAlphabet : Type.
Variable get_symbols : EnumAlphabet → list Symbol.

(** [Segmentation segmentation{ aut, epsilon }] with its two accessors;
    [EpsilonDepthTransitions] is an unordered map from depths to vectors of
    transitions. *)
Variable get_segments_raw : Nfa → Symbol → list Nfa.
Variable get_epsilon_depths : Nfa → Symbol → gmap N (list Trans).

(** The order in which a range-for loop visits a [std::unordered_map] is
    not specified: it is some enumeration of the entries. *)
Variable unordered_iteration : ∀ V : Type, gmap N V → list (N * V).
Hypothesis unordered_iteration_perm :
  ∀ (V : Type) (m : gmap N V), unordered_iteration V m ≡ₚ map_to_list m.

(** *** Lines 35-43: [get_num_of_permutations] *)
Definition get_num_of_permutations (epsilon_depths : gmap N (list Trans)) : N :=
  foldl (λ num_of_permutations segment,
           wrap_size_t (num_of_permutations * N.of_nat (length segment.2)))
        1%N (unordered_iteration _ epsilon_depths).

(** *** Lines 51-59: the case of one segment *)
Definition noodlify_one_segment (segment0 : Nfa) (include_empty : bool)
    : NoodleSequence :=
  let segment := trim segment0 in
  if (0 <? get_num_of_states segment)%N || include_empty
  then [[segment]]
  else [].

(** *** Lines 61-108: [segments_one_initial_final] *)

(** The guarded assignment [segments_one_initial_final[key] = segment]. *)
Definition store_segment (include_empty : bool) (key : SegmentKey)
    (segment : Nfa) (registry : gmap (N * N) Nfa) : gmap (N * N) Nfa :=
  if (0 <? get_num_of_states segment)%N || include_empty
  then <[key := segment]> registry
  else registry.

Definition first_segment_loop (unused_state : State) (include_empty : bool)
    (seg : Nfa) (registry : gmap (N * N) Nfa) : gmap (N * N) Nfa :=
  foldl (λ registry final_state,
           let segment_one_final := trim (set_finalstates seg [final_state]) in
           store_segment include_empty (unused_state, final_state)
                         segment_one_final registry)
        registry (finalstates seg).

Definition last_segment_loop (unused_state : State) (include_empty : bool)
    (seg : Nfa) (registry : gmap (N * N) Nfa) : gmap (N * N) Nfa :=
  foldl (λ registry init_state,
           let segment_one_init := trim (set_initialstates seg [init_state]) in
           store_segment include_empty (init_state, unused_state)
                         segment_one_init registry)
        registry (initialstates seg).

Definition middle_segment_loop (include_empty : bool)
    (seg : Nfa) (registry : gmap (N * N) Nfa) : gmap (N * N) Nfa :=
  foldl (λ registry init_state,
           foldl (λ registry final_state,
                    let segment_one_init_final :=
                      trim (set_finalstates
                              (set_initialstates seg [init_state])
                              [final_state]) in
                    store_segment include_empty (init_state, final_state)
                                  segment_one_init_final registry)
                 registry (finalstates seg))
        registry (initialstates seg).

(** The loop over [segments]; [at_begin] is [iter == segments.begin()] and
    an empty rest is [iter + 1 == segments.end()]. *)
Fixpoint segments_loop (unused_state : State) (include_empty : bool)
    (at_begin : bool) (segments : list Nfa)
    (registry : gmap (N * N) Nfa) : gmap (N * N) Nfa :=
  match segments with
  | [] => registry
  | seg :: rest =>
      let registry' :=
        if at_begin then first_segment_loop unused_state include_empty seg registry
        else match rest with
             | [] => last_segment_loop unused_state include_empty seg registry
             | _ :: _ => middle_segment_loop include_empty seg registry
             end in
      segments_loop unused_state include_empty false rest registry'
  end.

Definition segments_one_initial_final (unused_state : State)
    (include_empty : bool) (segments : list Nfa) : gmap (N * N) Nfa :=
  segments_loop unused_state include_empty true segments ∅.


(** *** Lines 110-122: the header of the alternating automaton *)
Definition print_header (useBits : bool) : string :=
  if negb useBits
  then "@AFA-explicit" +:+ endl +:+ "%Alphabet-numbers" +:+ endl
       +:+ "%Tracks-auto" +:+ endl
  else "@AFA-bits" +:+ endl.

(** *** Lines 124-134: the disjunction of the initial states of [aut] *)
Definition print_initial (aut : Nfa) : string :=
  "%Initial ("
  +:+ print_separated " | " (λ init, "q" +:+ pretty init) (initialstates aut) true
  +:+ ")".

(** *** Lines 136-154: the loop over the segments after the first *)
Definition visit_initial_state (oldInitialStatesNoodles : list (list State))
    (st : SegmentLoopState) (init : State) : SegmentLoopState :=
  {| segmentReachableStates := segmentReachableStates st;
     initialStatesNoodles :=
       initialStatesNoodles st
       ++ ((λ oldNoodle, oldNoodle ++ [init]) <$> oldInitialStatesNoodles);
     allSegmentsInitialStates := allSegmentsInitialStates st ++ [init];
     initStateToPreviousNonFinalStates :=
       <[init := back [] (segmentReachableStates st)]>
         (initStateToPreviousNonFinalStates st) |}.

Definition visit_segment (st : SegmentLoopState) (seg : Nfa) : SegmentLoopState :=
  let oldInitialStatesNoodles := initialStatesNoodles st in
  let st1 :=
    {| segmentReachableStates := segmentReachableStates st;
       initialStatesNoodles := [];
       allSegmentsInitialStates := allSegmentsInitialStates st;
       initStateToPreviousNonFinalStates := initStateToPreviousNonFinalStates st |} in
  let st2 := foldl (visit_initial_state oldInitialStatesNoodles) st1 (initialstates seg) in
  {| segmentReachableStates := segmentReachableStates st2 ++ [get_reachable_states seg];
     initialStatesNoodles := initialStatesNoodles st2;
     allSegmentsInitialStates := allSegmentsInitialStates st2;
     initStateToPreviousNonFinalStates := initStateToPreviousNonFinalStates st2 |}.

Definition segment_loop (segment0 : Nfa) (later_segments : list Nfa)
    : SegmentLoopState :=
  foldl visit_segment
        {| segmentReachableStates := [get_reachable_states segment0];
           initialStatesNoodles := [[]];
           allSegmentsInitialStates := [];
           initStateToPreviousNonFinalStates := ∅ |}
        later_segments.

(** *** Lines 156-177: the disjunction of the initial noodles *)
Definition print_initial_noodles (noodles : list (list State)) : string :=
  " & ("
  +:+ print_separated " | "
        (λ initialStatesNoodle,
           "("
           +:+ print_separated " & "
                 (λ init, "q" +:+ pretty init +:+ " & " +:+ "q" +:+ pretty init +:+ "'")
                 initialStatesNoodle true
           +:+ ")")
        noodles true
  +:+ ")" +:+ endl.

(** *** Lines 179-183: the sources of the epsilon transitions are removed *)
Definition remove_source (m : gmap N StateSet) (tran : Trans) : gmap N StateSet :=
  <[tgt tran := StateSet_remove (default [] (m !! tgt tran)) (src tran)]> m.

Definition remove_epsilon_sources (epsilon_depths : gmap N (list Trans))
    (m : gmap N StateSet) : gmap N StateSet :=
  foldl (λ m elem, foldl remove_source m elem.2)
        m (unordered_iteration _ epsilon_depths).

(** *** Lines 195-230: the formula [%Final] *)
Definition print_negated_states (states : StateSet) : string :=
  print_separated " & " (λ s, "!q" +:+ pretty s) states true.

Definition print_previous_non_final (elem : N * StateSet) : string :=
  if (length elem.2 =? 0)%nat then ""
  else " & (!q" +:+ pretty elem.1 +:+ "' | ("
       +:+ print_negated_states elem.2 +:+ "))".

Definition print_final (lastSegmentReachableStates : StateSet)
    (last_segment : Nfa) (previousNonFinal : gmap N StateSet) : string :=
  let finalSegNonFinalStates :=
    stateSetMinus lastSegmentReachableStates (finalstates last_segment) in
  "%Final "
  +:+ (if (length finalSegNonFinalStates =? 0)%nat then "true"
       else "(" +:+ print_negated_states finalSegNonFinalStates +:+ ")")
  +:+ print_all print_previous_non_final (unordered_iteration _ previousNonFinal)
  +:+ endl.

(** *** Lines 232-266: [neededBits] and the lambda [remapSymbol] *)
Definition neededBits_of (alphabet_size : N) : N :=
  if (1 <? alphabet_size)%N
  then 32 - builtin_clz (wrap_size_t (alphabet_size - 1))
  else 1.

Definition print_bit (symBits : string) (startingBit i : N) : string :=
  (if negb (i =? 0)%N then " & " else "")
  +:+ (if bool_decide (String.get (31 - N.to_nat i) symBits
                       = Some (Ascii.ascii_of_nat 48))
       then "!" else "")
  +:+ "a" +:+ pretty (wrap_size_t (startingBit + i)).

(** Lines 248-265: the text for [remappedSymbol] on the track [trackNum]. *)
Definition print_remapped (useBits : bool) (neededBits : N)
    (remappedSymbol : Symbol) (trackNum : N) : string :=
  if useBits
  then
    let symBits := bitset32_to_string remappedSymbol in
    let startingBit := wrap_size_t (trackNum * neededBits) in
    print_all (print_bit symBits startingBit) (index_range neededBits)
  else pretty remappedSymbol +:+ "@t" +:+ pretty trackNum.

(** Lines 239-246: the lookup in [symbolRemapping], which gives a symbol seen
    for the first time the value of [newSymbol]. *)
Definition remap_lookup (st : RemapState) (symToRemap : Symbol)
    : RemapState * Symbol :=
  match symbolRemapping st !! symToRemap with
  | None =>
      ({| symbolRemapping := <[symToRemap := newSymbol st]> (symbolRemapping st);
          newSymbol := newSymbol st + 1 |},
       newSymbol st)
  | Some found => (st, found)
  end.

Definition remapSymbol (useBits : bool) (neededBits : N) (st : RemapState)
    (symToRemap : Symbol) (trackNum : N) : RemapState * string :=
  let '(st', remappedSymbol) := remap_lookup st symToRemap in
  (st', print_remapped useBits neededBits remappedSymbol trackNum).

(** *** Lines 268-302: the transition formulas *)

(** A loop whose body calls [remapSymbol]: the captured state is threaded
    through the iterations and the printed pieces are concatenated.  [None]:
    an iteration indexes a vector out of its range. *)
Fixpoint print_all_with {A : Type}
    (item : RemapState → A → option (RemapState * string))
    (st : RemapState) (l : list A) : option (RemapState * string) :=
  match l with
  | [] => Some (st, "")
  | x :: rest =>
      '(st1, out1) ← item st x;
      '(st2, out2) ← print_all_with item st1 rest;
      Some (st2, out1 +:+ out2)
  end.

Definition print_states_to (targets : StateSet) : string :=
  print_separated " | " (λ r, "q" +:+ pretty r) targets true.

Fixpoint print_transitions_from (useBits : bool) (neededBits varNum : N)
    (transFromState : list TransSymbolStates) (isFirstTran : bool)
    (st : RemapState) : RemapState * string :=
  match transFromState with
  | [] => (st, "")
  | tran :: rest =>
      let '(st1, remapped) := remapSymbol useBits neededBits st (symbol tran) varNum in
      let '(st2, out) :=
        print_transitions_from useBits neededBits varNum rest false st1 in
      (st2,
       (if isFirstTran then "" else " | ")
       +:+ ("(" +:+ remapped +:+ " & (" +:+ print_states_to (states_to tran) +:+ "))")
       +:+ out)
  end.

Definition print_state_transitions (useBits : bool) (neededBits varNum : N)
    (varAut : Nfa) (st : RemapState) (s : State) : RemapState * string :=
  let transFromState := get_transitions_from varAut s in
  if (length transFromState =? 0)%nat then (st, "")
  else
    let '(st', out) :=
      print_transitions_from useBits neededBits varNum transFromState true st in
    (st', "q" +:+ pretty s +:+ " " +:+ out +:+ endl).

Definition print_variable_location (useBits : bool) (neededBits : N)
    (segments : list Nfa) (reachable : list StateSet) (varNum : N)
    (st : RemapState) (varLoc : nat) : option (RemapState * string) :=
  varAut ← segments !! varLoc;
  states ← reachable !! varLoc;
  print_all_with
    (λ st s, Some (print_state_transitions useBits neededBits varNum varAut st s))
    st states.

Definition print_variable (useBits : bool) (neededBits : N)
    (segments : list Nfa) (reachable : list StateSet)
    (variableLocations : list (list nat))
    (st : RemapState) (varNum : N) : option (RemapState * string) :=
  locations ← variableLocations !! N.to_nat varNum;
  print_all_with
    (print_variable_location useBits neededBits segments reachable varNum)
    st locations.

Definition print_transitions (useBits : bool) (neededBits : N)
    (segments : list Nfa) (reachable : list StateSet)
    (variableLocations : list (list nat)) : option (RemapState * string) :=
  let numOfVars := N.of_nat (length variableLocations) in
  print_all_with
    (print_variable useBits neededBits segments reachable variableLocations)
    {| symbolRemapping := ∅; newSymbol := 0 |}
    (index_range numOfVars).

(** *** Lines 304-308: the self loops of the primed states and the marker *)
Definition print_primed_loops (allInitialStates : list State) : string :=
  print_all (λ init, "q" +:+ pretty init +:+ "' " +:+ "q" +:+ pretty init +:+ "'" +:+ endl)
            allInitialStates.

Definition print_marker : string := "#AFA was fully printed" +:+ endl.

(** *** Lines 110-310: everything written to [afaOutput] *)
Definition print_afa (aut segment0 : Nfa) (later_segments : list Nfa)
    (epsilon_depths : gmap N (list Trans))
    (variableLocations : list (list nat)) (alphabet_size : N)
    (useBits : bool) : option string :=
  let segments := segment0 :: later_segments in
  let loop := segment_loop segment0 later_segments in
  let previousNonFinal :=
    remove_epsilon_sources epsilon_depths (initStateToPreviousNonFinalStates loop) in
  '(_, transitions) ←
    print_transitions useBits (neededBits_of alphabet_size) segments
                      (segmentReachableStates loop) variableLocations;
  Some (print_header useBits
        +:+ print_initial aut
        +:+ print_initial_noodles (initialStatesNoodles loop)
        +:+ print_final (back [] (segmentReachableStates loop))
                        (back segment0 segments) previousNonFinal
        +:+ transitions
        +:+ print_primed_loops (allSegmentsInitialStates loop)
        +:+ print_marker).

(** *** Lines 312-368: the enumeration of the noodles *)

(** Lines 324-330: the epsilon transition of every depth for one [index].
    [None]: [at(depth)] throws, or the division is by zero. *)
Fixpoint choose_epsilon_noodle (epsilon_depths : gmap N (list Trans))
    (depths : list N) (temp : N) : option TransSequence :=
  match depths with
  | [] => Some []
  | depth :: rest =>
      transitions ← epsilon_depths !! depth;
      let num_of_trans_at_cur_depth := N.of_nat (length transitions) in
      if (num_of_trans_at_cur_depth =? 0)%N then None
      else
        let computed_index := (temp mod num_of_trans_at_cur_depth)%N in
        chosen ← transitions !! N.to_nat computed_index;
        (chosen ::.) <$> choose_epsilon_noodle epsilon_depths rest
                           (temp / num_of_trans_at_cur_depth)%N
  end.

(** Lines 342-352: the segments between consecutive epsilon transitions.
    [None]: a lookup found nothing ([all_segments_exist = false]). *)
Fixpoint middle_segments (registry : gmap (N * N) Nfa)
    (epsilon_noodle : TransSequence) : option Noodle :=
  match epsilon_noodle with
  | iter :: ((next_iter :: _) as rest) =>
      segment ← registry !! (tgt iter, src next_iter);
      (segment ::.) <$> middle_segments registry rest
  | _ => Some []
  end.

(** Lines 332-366: the noodle of one combination.  Outer [None]: the vector
    [epsilon_noodle] is empty and is indexed at 0.  Inner [None]: [continue]. *)
Definition make_noodle (registry : gmap (N * N) Nfa) (unused_state : State)
    (epsilon_noodle : TransSequence) : option (option Noodle) :=
  match epsilon_noodle with
  | [] => None
  | first :: _ =>
      Some (first_segment ← registry !! (unused_state, src first);
            middle ← middle_segments registry epsilon_noodle;
            last_segment ←
              registry !! (tgt (back first epsilon_noodle), unused_state);
            Some (first_segment :: middle ++ [last_segment]))
  end.

Definition enumeration_step (registry : gmap (N * N) Nfa) (unused_state : State)
    (epsilon_depths : gmap N (list Trans)) (epsilon_depths_size : N)
    (noodles : option NoodleSequence) (index : N) : option NoodleSequence :=
  noodles ← noodles;
  epsilon_noodle ←
    choose_epsilon_noodle epsilon_depths (index_range epsilon_depths_size) index;
  made ← make_noodle registry unused_state epsilon_noodle;
  Some (match made with
        | Some noodle => noodles ++ [noodle]
        | None => noodles
        end).

Definition enumerate_noodles (registry : gmap (N * N) Nfa) (unused_state : State)
    (epsilon_depths : gmap N (list Trans)) : option NoodleSequence :=
  let num_of_permutations := get_num_of_permutations epsilon_depths in
  let epsilon_depths_size := N.of_nat (size epsilon_depths) in
  foldl (enumeration_step registry unused_state epsilon_depths epsilon_depths_size)
        (Some []) (index_range num_of_permutations).

(** *** Lines 47-369: [SegNfa::noodlify] *)

(** The result and the text written to the sink.  [None]: the call does not
    return normally (a vector indexed out of range, [at] on a missing depth). *)
Definition noodlify (aut : Nfa) (epsilon : Symbol)
    (variableLocations : list (list nat)) (alph : EnumAlphabet)
    (include_empty useBits : bool) : option (NoodleSequence * string) :=
  let segments := get_segments_raw aut epsilon in
  match segments with
  | [] => None
  | [segment0] => Some (noodlify_one_segment segment0 include_empty, "")
  | segment0 :: later_segments =>
      let unused_state := get_num_of_states aut in
      let registry :=
        segments_one_initial_final unused_state include_empty segments in
      let epsilon_depths := get_epsilon_depths aut epsilon in
      afaOutput ← print_afa aut segment0 later_segments epsilon_depths
                            variableLocations
                            (N.of_nat (length (get_symbols alph))) useBits;
      noodles ← enumerate_noodles registry unused_state epsilon_depths;
      Some (noodles, afaOutput)
  end.

(** ** The equation driver: [SegNfa::noodlify_for_equation] *)

(** *** The NFA library, as used by the two overloads *)
Variable unify_initial : Nfa → Nfa.
Variable unify_final : Nfa → Nfa.
Variable is_lang_empty : Nfa → bool.
Variable concatenate : Nfa → Nfa → Symbol → Nfa.
Variable intersection : Nfa → Nfa → Symbol → Nfa.
Variable reduce : Nfa → Nfa.
Variable invert : Nfa → Nfa.
Variable from_nfas : list Nfa → EnumAlphabet.
Variable add_symbols_from : EnumAlphabet → Nfa → EnumAlphabet.

(** [alphabet.get_next_value()]: the value and the alphabet after the call. *)
Variable get_next_value : EnumAlphabet → Symbol * EnumAlphabet.

(** The automata of the left side are objects of the caller that the driver
    may mutate: [heap] maps a location to the automaton stored there, and an
    [AutRefSequence] or [AutPtrSequence] is a vector of locations, in which a
    location may occur more than once. *)

(** Lines 376-380 and 438-442: [unify_initial] and [unify_final] are called on
    the object behind every element of [left_automata], in order. *)
Definition unify_left_automata (left_automata : list nat)
    (heap : gmap nat Nfa) : gmap nat Nfa :=
  foldl (λ heap left_aut, alter (λ aut, unify_final (unify_initial aut)) left_aut heap)
        heap left_automata.

(** Lines 384-396 and 448-460: the alphabet, the fresh epsilon, the left side
    concatenated over epsilon and the trimmed product. *)
Definition build_product (first_automaton : Nfa) (next_automata : list Nfa)
    (right_automaton : Nfa) : EnumAlphabet * Symbol * Nfa :=
  let alphabet := from_nfas (first_automaton :: next_automata) in
  let alphabet := add_symbols_from alphabet right_automaton in
  let '(epsilon, alphabet) := get_next_value alphabet in
  let concatenated_left_side :=
    foldl (λ concatenated next_left_automaton,
             concatenate concatenated next_left_automaton epsilon)
          first_automaton next_automata in
  let product_pres_eps_trans :=
    intersection concatenated_left_side right_automaton epsilon in
  (alphabet, epsilon, trim product_pres_eps_trans).

(** Lines 402-409 and 465-472: the reductions asked for by [reduce_value]. *)
Definition apply_reduce (reduce_value : string) (product_pres_eps_trans : Nfa) : Nfa :=
  let product_pres_eps_trans :=
    if String.eqb reduce_value "forward" || String.eqb reduce_value "bidirectional"
    then reduce product_pres_eps_trans
    else product_pres_eps_trans in
  if String.eqb reduce_value "backward" || String.eqb reduce_value "bidirectional"
  then invert (reduce (invert product_pres_eps_trans))
  else product_pres_eps_trans.

(** Lines 411-420 and 474-483: the encoding asked for by [afa-type]. *)
Definition afa_type_use_bits (params : gmap string string) : bool :=
  let useBits := true in
  match params !! "afa-type" with
  | Some type_value =>
      let useBits := if String.eqb type_value "bits" then true else useBits in
      if String.eqb type_value "tracks" then false else useBits
  | None => useBits
  end.

(** *** Lines 371-422: the overload that takes references *)
Definition noodlify_for_equation_ref (heap : gmap nat Nfa)
    (left_automata : list nat) (right_automaton : Nfa)
    (variableLocations : list (list nat)) (include_empty : bool)
    (params : gmap string string)
    : gmap nat Nfa * option (NoodleSequence * string) :=
  let heap := unify_left_automata left_automata heap in
  (heap,
   if bool_decide (left_automata = []) || is_lang_empty right_automaton
   then Some ([], "")
   else
     automata ← mapM (λ left_aut, heap !! left_aut) left_automata;
     match automata with
     | [] => None
     | first_automaton :: next_automata =>
         let '(alphabet, epsilon, product_pres_eps_trans) :=
           build_product first_automaton next_automata right_automaton in
         if is_lang_empty product_pres_eps_trans then Some ([], "")
         else
           let product_pres_eps_trans :=
             match params !! "reduce" with
             | Some reduce_value => apply_reduce reduce_value product_pres_eps_trans
             | None => product_pres_eps_trans
             end in
           noodlify product_pres_eps_trans epsilon variableLocations alphabet
                    include_empty (afa_type_use_bits params)
     end).

(** *** Lines 424-485: the overload that takes shared pointers *)

(** Lines 431-434: [reduce_value], empty when [params] has no key [reduce]. *)
Definition reduce_value_of (params : gmap string string) : string :=
  default "" (params !! "reduce").

(** Lines 436-437: the test that guards the calls of [unify_initial] and
    [unify_final]. *)
Definition reduce_requested (reduce_value : string) : bool :=
  negb (String.eqb reduce_value "")
  && (String.eqb reduce_value "forward" || String.eqb reduce_value "backward"
      || String.eqb reduce_value "bidirectional").

Definition noodlify_for_equation_ptr (heap : gmap nat Nfa)
    (left_automata : list nat) (right_automaton : Nfa)
    (variableLocations : list (list nat)) (include_empty : bool)
    (params : gmap string string)
    : gmap nat Nfa * option (NoodleSequence * string) :=
  let reduce_value := reduce_value_of params in
  let heap :=
    if reduce_requested reduce_value
    then unify_left_automata left_automata heap
    else heap in
  (heap,
   if bool_decide (left_automata = []) || is_lang_empty right_automaton
   then Some ([], "")
   else
     automata ← mapM (λ left_aut, heap !! left_aut) left_automata;
     match automata with
     | [] => None
     | first_automaton :: next_automata =>
         let '(alphabet, epsilon, product_pres_eps_trans) :=
           build_product first_automaton next_automata right_automaton in
         if is_lang_empty product_pres_eps_trans then Some ([], "")
         else
           let product_pres_eps_trans :=
             if negb (String.eqb reduce_value "")
             then apply_reduce reduce_value product_pres_eps_trans
             else product_pres_eps_trans in
           noodlify product_pres_eps_trans epsilon variableLocations alphabet
                    include_empty (afa_type_use_bits params)
     end).

(** ** Definitions used to state the properties *)

(** An automaton that the guard of lines 80, 90 and 102 lets into the map. *)
Definition storable (include_empty : bool) (segment : Nfa) : Prop :=
  (0 < get_num_of_states segment)%N ∨ include_empty = true.

(** The keys and automata that the construction of
    [segments_one_initial_final] is meant to produce for [segments]: the first
    segment with one of its final states, the last segment with one of its
    initial states, a segment in between with one initial and one final
    state, each trimmed. *)
Inductive registry_entry (unused_state : State) (segments : list Nfa)
    : N * N → Nfa → Prop :=
  | registry_entry_first seg rest final_state :
      segments = seg :: rest →
      final_state ∈ finalstates seg →
      registry_entry unused_state segments (unused_state, final_state)
        (trim (set_finalstates seg [final_state]))
  | registry_entry_last before seg init_state :
      segments = before ++ [seg] → before ≠ [] →
      init_state ∈ initialstates seg →
      registry_entry unused_state segments (init_state, unused_state)
        (trim (set_initialstates seg [init_state]))
  | registry_entry_middle before seg after init_state final_state :
      segments = before ++ seg :: after → before ≠ [] → after ≠ [] →
      init_state ∈ initialstates seg →
      final_state ∈ finalstates seg →
      registry_entry unused_state segments (init_state, final_state)
        (trim (set_finalstates (set_initialstates seg [init_state]) [final_state])).

(** The entries of the map as the property words them, with the state sets
    of the copy written out: the copy of the first segment keeps the initial
    states of the segment and has the one final state [f]; the copy of the
    last segment has the one initial state [i] and keeps the final states; the
    copy of a segment in between has the one initial state [i] and the one
    final state [f].  The transitions are those of the segment, and the copy
    is trimmed. *)
Definition pinned_copy (seg : Nfa) (initial final : StateSet) : Nfa :=
  {| initialstates := initial;
     finalstates := final;
     transitionrelation := transitionrelation seg |}.

Inductive pinned_entry (unused_state : State) (segments : list Nfa)
    : N * N → Nfa → Prop :=
  | pinned_entry_first seg rest f :
      segments = seg :: rest →
      f ∈ finalstates seg →
      pinned_entry unused_state segments (unused_state, f)
        (trim (pinned_copy seg (initialstates seg) [f]))
  | pinned_entry_last before seg i :
      segments = before ++ [seg] → before ≠ [] →
      i ∈ initialstates seg →
      pinned_entry unused_state segments (i, unused_state)
        (trim (pinned_copy seg [i] (finalstates seg)))
  | pinned_entry_middle before seg after i f :
      segments = before ++ seg :: after → before ≠ [] → after ≠ [] →
      i ∈ initialstates seg →
      f ∈ finalstates seg →
      pinned_entry unused_state segments (i, f)
        (trim (pinned_copy seg [i] [f])).

(** The assignments that the loops over the segments attempt, in order. *)
Definition first_segment_entries (unused_state : State) (seg : Nfa)
    : list (N * N * Nfa) :=
  (λ final_state,
     ((unused_state, final_state), trim (set_finalstates seg [final_state])))
  <$> finalstates seg.

Definition last_segment_entries (unused_state : State) (seg : Nfa)
    : list (N * N * Nfa) :=
  (λ init_state,
     ((init_state, unused_state), trim (set_initialstates seg [init_state])))
  <$> initialstates seg.

Definition middle_segment_entries (seg : Nfa) : list (N * N * Nfa) :=
  init_state ← initialstates seg;
  (λ final_state,
     ((init_state, final_state),
      trim (set_finalstates (set_initialstates seg [init_state]) [final_state])))
  <$> finalstates seg.

Fixpoint segments_entries (unused_state : State) (at_begin : bool)
    (segments : list Nfa) : list (N * N * Nfa) :=
  match segments with
  | [] => []
  | seg :: rest =>
      (if at_begin then first_segment_entries unused_state seg
       else match rest with
            | [] => last_segment_entries unused_state seg
            | _ :: _ => middle_segment_entries seg
            end)
      ++ segments_entries unused_state false rest
  end.

Definition store_entries (include_empty : bool) (entries : list (N * N * Nfa))
    (registry : gmap (N * N) Nfa) : gmap (N * N) Nfa :=
  foldl (λ registry entry, store_segment include_empty entry.1 entry.2 registry)
        registry entries.

(** The reachable states of the segment that precedes the last segment of
    [later_segments] in which [i] is an initial state; [prev] is the segment
    before [later_segments]. *)
Fixpoint previous_reachable (prev : Nfa) (later_segments : list Nfa) (i : State)
    : option StateSet :=
  match later_segments with
  | [] => None
  | seg :: rest =>
      match previous_reachable seg rest i with
      | Some reachable => Some reachable
      | None =>
          if decide (i ∈ initialstates seg)
          then Some (get_reachable_states prev) else None
      end
  end.






(** The bit atoms of a remapped symbol on a track, least significant bit
    first: the atom [a(track * neededBits + i)] stands for bit [i], and is
    negated when that bit is 0. *)
Definition bit_atoms (neededBits trackNum remappedSymbol : N) : string :=
  print_separated " & "
    (λ i, (if N.testbit remappedSymbol i then "" else "!")
          +:+ "a" +:+ pretty (trackNum * neededBits + i)%N)
    (index_range neededBits) true.

(** The bit atoms as the claim words them, most significant bit first: the
    atom [a(track * neededBits + i)] stands for bit [neededBits - 1 - i]. *)
Definition claimed_bit_atoms (neededBits trackNum remappedSymbol : N) : string :=
  print_separated " & "
    (λ i, (if N.testbit remappedSymbol (neededBits - 1 - i) then "" else "!")
          +:+ "a" +:+ pretty (trackNum * neededBits + i)%N)
    (index_range neededBits) true.

(** The width as the claim words it: the rounded-up binary logarithm of
    [max(1, |alphabet|)]. *)
Definition claimed_neededBits (alphabet_size : N) : N :=
  N.log2_up (N.max 1 alphabet_size).

(** The symbols that the transition loops hand to [remapSymbol], in the
    order of the calls. *)
Definition symbols_of_state (varAut : Nfa) (s : State) : list Symbol :=
  symbol <$> get_transitions_from varAut s.

Definition symbols_of_location (segments : list Nfa) (reachable : list StateSet)
    (varLoc : nat) : list Symbol :=
  match segments !! varLoc, reachable !! varLoc with
  | Some varAut, Some states => states ≫= symbols_of_state varAut
  | _, _ => []
  end.

Definition symbols_of_variable (segments : list Nfa) (reachable : list StateSet)
    (variableLocations : list (list nat)) (varNum : N) : list Symbol :=
  default [] (variableLocations !! N.to_nat varNum)
  ≫= symbols_of_location segments reachable.

Definition emitted_symbols (segments : list Nfa) (reachable : list StateSet)
    (variableLocations : list (list nat)) : list Symbol :=
  index_range (N.of_nat (length variableLocations))
  ≫= symbols_of_variable segments reachable variableLocations.

(** The distinct symbols of a sequence, in the order of their first
    occurrences. *)
Definition first_occurrences (syms : list Symbol) : list Symbol :=
  foldl (λ seen sym, if decide (sym ∈ seen) then seen else seen ++ [sym])
        [] syms.

(** The transition lines printed with one fixed table: every occurrence of
    a symbol is printed from its entry in [table]. *)
Definition render_symbol (useBits : bool) (neededBits : N) (table : gmap N N)
    (sym : Symbol) (trackNum : N) : string :=
  print_remapped useBits neededBits (default 0%N (table !! sym)) trackNum.

Definition render_transitions_from (useBits : bool) (neededBits : N)
    (table : gmap N N) (varNum : N) (transFromState : list TransSymbolStates)
    (isFirstTran : bool) : string :=
  print_separated " | "
    (λ tran, "(" +:+ render_symbol useBits neededBits table (symbol tran) varNum
             +:+ " & (" +:+ print_states_to (states_to tran) +:+ "))")
    transFromState isFirstTran.

Definition render_state (useBits : bool) (neededBits : N) (table : gmap N N)
    (varNum : N) (varAut : Nfa) (s : State) : string :=
  let transFromState := get_transitions_from varAut s in
  if (length transFromState =? 0)%nat then ""
  else "q" +:+ pretty s +:+ " "
       +:+ render_transitions_from useBits neededBits table varNum
             transFromState true
       +:+ endl.

Definition render_location (useBits : bool) (neededBits : N) (table : gmap N N)
    (segments : list Nfa) (reachable : list StateSet) (varNum : N)
    (varLoc : nat) : string :=
  match segments !! varLoc, reachable !! varLoc with
  | Some varAut, Some states =>
      print_all (render_state useBits neededBits table varNum varAut) states
  | _, _ => ""
  end.

Definition render_variable (useBits : bool) (neededBits : N) (table : gmap N N)
    (segments : list Nfa) (reachable : list StateSet)
    (variableLocations : list (list nat)) (varNum : N) : string :=
  print_all (render_location useBits neededBits table segments reachable varNum)
            (default [] (variableLocations !! N.to_nat varNum)).

Definition render_transitions (useBits : bool) (neededBits : N)
    (table : gmap N N) (segments : list Nfa) (reachable : list StateSet)
    (variableLocations : list (list nat)) : string :=
  print_all (render_variable useBits neededBits table segments reachable
                             variableLocations)
            (index_range (N.of_nat (length variableLocations))).

(** The encoded forms with which [sym] occurs in the transition lines
    printed from [table], one for every occurrence, in the order of the
    lines: an occurrence in the lines of the variable [varNum] is written on
    the track [varNum]. *)
Definition encoded_forms (useBits : bool) (neededBits : N) (table : gmap N N)
    (segments : list Nfa) (reachable : list StateSet)
    (variableLocations : list (list nat)) (sym : Symbol) : list string :=
  varNum ← index_range (N.of_nat (length variableLocations));
  (λ _, render_symbol useBits neededBits table sym varNum)
  <$> filter (λ occurrence, occurrence = sym)
             (symbols_of_variable segments reachable variableLocations varNum).

(** The state of [remapSymbol] after a sequence of calls. *)
Definition remap_symbols (st : RemapState) (syms : list Symbol) : RemapState :=
  foldl (λ st sym, (remap_lookup st sym).1) st syms.

(** A loop over calls of [remapSymbol] that succeeds from every state, makes
    the calls for [syms], and prints what [render] gives for the table it
    ends with; [render] gives the same for every larger table. *)
Definition simulates (action : RemapState → option (RemapState * string))
    (syms : list Symbol) (render : gmap N N → string) : Prop :=
  ∀ st,
    action st
    = Some (remap_symbols st syms,
            render (symbolRemapping (remap_symbols st syms)))
    ∧ ∀ table,
        symbolRemapping (remap_symbols st syms) ⊆ table →
        render table = render (symbolRemapping (remap_symbols st syms)).

(** Every variable location is the index of a segment. *)
Definition locations_in_range (variableLocations : list (list nat))
    (number_of_segments : nat) : Prop :=
  ∀ locations varLoc,
    locations ∈ variableLocations → varLoc ∈ locations →
    (varLoc < number_of_segments)%nat.

(** The table numbers the symbols of [seen] by their positions. *)
Definition table_numbers (st : RemapState) (seen : list Symbol) : Prop :=
  newSymbol st = N.of_nat (length seen)
  ∧ ∀ sym r, symbolRemapping st !! sym = Some r ↔ seen !! N.to_nat r = Some sym.

(** The number of combinations of one epsilon transition per depth: the
    product of the numbers of transitions of the depths 0, 1, ... *)
Definition depth_transitions (epsilon_depths : gmap N (list Trans)) (depth : N)
    : list Trans :=
  default [] (epsilon_depths !! depth).

Definition number_of_combinations (epsilon_depths : gmap N (list Trans)) : N :=
  foldr (λ depth product,
           N.of_nat (length (depth_transitions epsilon_depths depth)) * product)%N
        1%N (index_range (N.of_nat (size epsilon_depths))).

(** Every lookup that the assembly of a combination can perform finds a
    segment: the first segment for every source of depth 0, the last segment
    for every target of the last depth, and a segment in between for every
    target of a depth with every source of the next depth. *)
Definition middle_pins_registered (registry : gmap (N * N) Nfa)
    (epsilon_depths : gmap N (list Trans)) (depth : N) : bool :=
  forallb (λ before,
             forallb (λ after,
                        bool_decide (is_Some (registry !! (tgt before, src after))))
                     (depth_transitions epsilon_depths (depth + 1)))
          (depth_transitions epsilon_depths depth).

Definition all_pins_registered (registry : gmap (N * N) Nfa)
    (unused_state : State) (epsilon_depths : gmap N (list Trans)) : bool :=
  let depths := N.of_nat (size epsilon_depths) in
  forallb (λ first, bool_decide (is_Some (registry !! (unused_state, src first))))
          (depth_transitions epsilon_depths 0)
  && forallb (middle_pins_registered registry epsilon_depths)
             (index_range (depths - 1))
  && forallb (λ last, bool_decide (is_Some (registry !! (tgt last, unused_state))))
             (depth_transitions epsilon_depths (depths - 1)).

(** The depths of the segmentation are exactly 0, ..., D - 1. *)
Definition dense_depths (epsilon_depths : gmap N (list Trans)) : Prop :=
  ∀ depth,
    is_Some (epsilon_depths !! depth)
    ↔ (depth < N.of_nat (size epsilon_depths))%N.

(** The combination with the number [index], read as a number in the mixed
    radix of the depth sizes: its digit for [depth] is [index] divided by the
    product of the sizes of the depths below, modulo the size of [depth]. *)
Definition radix_below (epsilon_depths : gmap N (list Trans)) (depth : N) : N :=
  foldr (λ below product,
           N.of_nat (length (depth_transitions epsilon_depths below)) * product)%N
        1%N (index_range depth).

Definition digit (epsilon_depths : gmap N (list Trans)) (index depth : N) : N :=
  ((index / radix_below epsilon_depths depth)
   mod N.of_nat (length (depth_transitions epsilon_depths depth)))%N.

Definition combination (epsilon_depths : gmap N (list Trans)) (index : N)
    : option TransSequence :=
  mapM (λ depth, depth_transitions epsilon_depths depth
                 !! N.to_nat (digit epsilon_depths index depth))
       (index_range (N.of_nat (size epsilon_depths))).

(** The noodle of a combination of epsilon transitions, if every segment
    it needs is in the map. *)
Definition noodle_of_combination (registry : gmap (N * N) Nfa)
    (unused_state : State) (epsilon_noodle : TransSequence) : option Noodle :=
  first ← head epsilon_noodle;
  final ← last epsilon_noodle;
  first_segment ← registry !! (unused_state, src first);
  middle ← middle_segments registry epsilon_noodle;
  last_segment ← registry !! (tgt final, unused_state);
  Some (first_segment :: middle ++ [last_segment]).

(** ** Definitions used to state further properties *)

(** The decimal digits, and the strings that do not start with one. *)
Definition is_digit (c : Ascii.ascii) : bool :=
  (48 <=? Ascii.nat_of_ascii c)%nat && (Ascii.nat_of_ascii c <=? 57)%nat.

Fixpoint all_digits (s : string) : bool :=
  match s with
  | EmptyString => true
  | String c rest => is_digit c && all_digits rest
  end.

Definition no_leading_digit (s : string) : bool :=
  match s with
  | EmptyString => true
  | String c _ => negb (is_digit c)
  end.

(** The product of the numbers of transitions of all depths of the map,
    taken in the order of the keys. *)
Definition product_of_depth_sizes (epsilon_depths : gmap N (list Trans)) : N :=
  foldr (λ segment product, N.of_nat (length segment.2) * product)%N
        1%N (map_to_list epsilon_depths).

(** The keys that the assembly of a noodle looks up for a combination of
    epsilon transitions: the unused state with the source of the first
    transition, the target of every transition with the source of the next
    one, and the target of the last transition with the unused state. *)
Fixpoint middle_keys (epsilon_noodle : TransSequence) : list (N * N) :=
  match epsilon_noodle with
  | iter :: ((next_iter :: _) as rest) =>
      (tgt iter, src next_iter) :: middle_keys rest
  | _ => []
  end.

Definition noodle_keys (unused_state : State) (epsilon_noodle : TransSequence)
    : list (N * N) :=
  match epsilon_noodle with
  | [] => []
  | first :: _ =>
      (unused_state, src first)
      :: middle_keys epsilon_noodle
      ++ [(tgt (back first epsilon_noodle), unused_state)]
  end.

(** The epsilon transitions of every depth lead from a final state of the
    segment of that depth to an initial state of the next segment. *)
Definition epsilon_transitions_connect (segments : list Nfa)
    (epsilon_depths : gmap N (list Trans)) : Prop :=
  ∀ (depth : nat) tran before after,
    tran ∈ depth_transitions epsilon_depths (N.of_nat depth) →
    segments !! depth = Some before →
    segments !! S depth = Some after →
    src tran ∈ finalstates before ∧ tgt tran ∈ initialstates after.

(** The number of assignments that the loops over the segments attempt: one
    for every final state of the first segment, one for every initial state
    of the last segment, and one for every pair of an initial and a final
    state of a segment in between. *)
Fixpoint later_assignments (segments : list Nfa) : nat :=
  match segments with
  | [] => 0
  | seg :: rest =>
      match rest with
      | [] => length (initialstates seg)
      | _ :: _ =>
          length (initialstates seg) * length (finalstates seg)
          + later_assignments rest
      end
  end.

Definition number_of_assignments (segments : list Nfa) : nat :=
  match segments with
  | [] => 0
  | seg :: rest => length (finalstates seg) + later_assignments rest
  end.

(** * Properties *)

(** ** The case of one segment *)

(** C10: when the segmentation has exactly one segment, [noodlify] returns
    with nothing written to the sink (no header, no formula, no transition
    line, no marker), whatever [include_empty] and [useBits] are. *)
Theorem noodlify_one_segment_writes_nothing aut epsilon variableLocations alph
    include_empty useBits segment0 :
  get_segments_raw aut epsilon = [segment0] →
  snd <$> noodlify aut epsilon variableLocations alph include_empty useBits
  = Some "".
Proof.
  intros Hseg. unfold noodlify. by rewrite Hseg.
Qed.

(** C7: when the segmentation has exactly one segment, [noodlify] returns the
    sequence of the one noodle made of the trimmed segment if that automaton
    has a state or [include_empty] is set, and the empty sequence otherwise;
    so for an input whose only segment trims to [trim aut], with [trim aut]
    not empty, the result is the one noodle [trim aut]. *)
Theorem noodlify_one_segment_result aut epsilon variableLocations alph
    include_empty useBits segment0 :
  get_segments_raw aut epsilon = [segment0] →
  fst <$> noodlify aut epsilon variableLocations alph include_empty useBits
  = Some (if (0 <? get_num_of_states (trim segment0))%N || include_empty
          then [[trim segment0]] else [])
  ∧ (trim segment0 = trim aut →
     (0 < get_num_of_states (trim aut))%N →
     fst <$> noodlify aut epsilon variableLocations alph include_empty useBits
     = Some [[trim aut]]).
Proof.
  intros Hseg. unfold noodlify. rewrite Hseg. cbn.
  unfold noodlify_one_segment. split; [done|].
  intros -> Hpos. apply N.ltb_lt in Hpos. by rewrite Hpos.
Qed.

(** ** The map [segments_one_initial_final] *)

Lemma store_segment_storable include_empty key segment registry :
  store_segment include_empty key segment registry
  = if decide (storable include_empty segment)
    then <[key := segment]> registry else registry.
Proof.
  unfold store_segment, storable.
  destruct (N.ltb_spec 0 (get_num_of_states segment)) as [Hlt|Hge];
    destruct include_empty; cbn.
  - rewrite decide_True; auto.
  - rewrite decide_True; auto.
  - rewrite decide_True; auto.
  - rewrite decide_False; [done|]. intros [Hlt|Hie]; [lia|done].
Qed.

Lemma store_entries_app include_empty entries1 entries2 registry :
  store_entries include_empty (entries1 ++ entries2) registry
  = store_entries include_empty entries2
      (store_entries include_empty entries1 registry).
Proof. unfold store_entries. by rewrite foldl_app. Qed.

Lemma store_entries_lookup_Some include_empty entries registry key segment :
  store_entries include_empty entries registry !! key = Some segment →
  registry !! key = Some segment
  ∨ ((key, segment) ∈ entries ∧ storable include_empty segment).
Proof.
  revert registry.
  induction entries as [|[k v] entries IH]; intros registry; cbn; [auto|].
  intros Hlook. apply IH in Hlook as [Hlook|[Hin Hst]].
  - rewrite store_segment_storable in Hlook. cbn in Hlook.
    case_decide as Hst; [|auto].
    rewrite lookup_insert in Hlook. case_decide as Hk; [|auto].
    right. injection Hlook as <-. subst k. split; [left|done].
  - right. split; [by right|done].
Qed.

Lemma store_entries_lookup_old include_empty entries registry key :
  is_Some (registry !! key) →
  is_Some (store_entries include_empty entries registry !! key).
Proof.
  revert registry.
  induction entries as [|[k v] entries IH]; intros registry; cbn; [auto|].
  intros Hold. apply IH. rewrite store_segment_storable. cbn.
  case_decide; [|done]. rewrite lookup_insert. by case_decide.
Qed.

Lemma store_entries_lookup_new include_empty entries registry key segment :
  (key, segment) ∈ entries → storable include_empty segment →
  is_Some (store_entries include_empty entries registry !! key).
Proof.
  revert registry.
  induction entries as [|[k v] entries IH]; intros registry Hin Hst; cbn.
  - by apply elem_of_nil in Hin.
  - apply elem_of_cons in Hin as [Heq|Hin]; [|by apply IH].
    injection Heq as <- <-. apply store_entries_lookup_old.
    rewrite store_segment_storable. cbn. rewrite decide_True by done.
    rewrite lookup_insert_eq. by eexists.
Qed.

Lemma first_segment_loop_entries unused_state include_empty seg registry :
  first_segment_loop unused_state include_empty seg registry
  = store_entries include_empty (first_segment_entries unused_state seg) registry.
Proof.
  unfold first_segment_loop, store_entries, first_segment_entries.
  by rewrite foldl_fmap.
Qed.

Lemma last_segment_loop_entries unused_state include_empty seg registry :
  last_segment_loop unused_state include_empty seg registry
  = store_entries include_empty (last_segment_entries unused_state seg) registry.
Proof.
  unfold last_segment_loop, store_entries, last_segment_entries.
  by rewrite foldl_fmap.
Qed.

Lemma middle_segment_loop_entries include_empty seg registry :
  middle_segment_loop include_empty seg registry
  = store_entries include_empty (middle_segment_entries seg) registry.
Proof.
  unfold middle_segment_loop, middle_segment_entries.
  generalize (finalstates seg) as finals. intros finals.
  revert registry.
  induction (initialstates seg) as [|i inits IH]; intros registry; [done|].
  cbn [foldl]. rewrite IH. cbn [mbind list_bind].
  rewrite store_entries_app. f_equal.
  unfold store_entries. by rewrite foldl_fmap.
Qed.

Lemma segments_loop_entries unused_state include_empty at_begin segments registry :
  segments_loop unused_state include_empty at_begin segments registry
  = store_entries include_empty
      (segments_entries unused_state at_begin segments) registry.
Proof.
  revert at_begin registry.
  induction segments as [|seg rest IH]; intros at_begin registry; [done|].
  cbn [segments_loop segments_entries]. rewrite IH, store_entries_app.
  f_equal. destruct at_begin.
  - apply first_segment_loop_entries.
  - destruct rest.
    + apply last_segment_loop_entries.
    + apply middle_segment_loop_entries.
Qed.

Lemma later_entries_sound unused_state rest key segment :
  (key, segment) ∈ segments_entries unused_state false rest →
  ∀ before, before ≠ [] →
    registry_entry unused_state (before ++ rest) key segment.
Proof.
  induction rest as [|seg rest IH]; cbn [segments_entries].
  - intros Hin. by apply elem_of_nil in Hin.
  - intros Hin before Hbefore. apply elem_of_app in Hin as [Hin|Hin].
    + destruct rest as [|next rest].
      * apply list_elem_of_fmap in Hin as (i & Heq & Hi).
        injection Heq as -> ->. by eapply registry_entry_last.
      * apply list_elem_of_bind in Hin as (i & Hin & Hi).
        apply list_elem_of_fmap in Hin as (f & Heq & Hf).
        injection Heq as -> ->. by eapply registry_entry_middle.
    + rewrite cons_middle, app_assoc. apply IH; [done|].
      by destruct before.
Qed.

Lemma later_entries_last unused_state before seg init_state :
  init_state ∈ initialstates seg →
  ((init_state, unused_state), trim (set_initialstates seg [init_state]))
  ∈ segments_entries unused_state false (before ++ [seg]).
Proof.
  intros Hi. induction before as [|b before IH]; cbn [app segments_entries].
  - apply elem_of_app. left. apply list_elem_of_fmap. eauto.
  - apply elem_of_app. by right.
Qed.

Lemma later_entries_middle unused_state before seg after init_state final_state :
  after ≠ [] →
  init_state ∈ initialstates seg →
  final_state ∈ finalstates seg →
  ((init_state, final_state),
   trim (set_finalstates (set_initialstates seg [init_state]) [final_state]))
  ∈ segments_entries unused_state false (before ++ seg :: after).
Proof.
  intros Hafter Hi Hf.
  induction before as [|b before IH]; cbn [app segments_entries].
  - apply elem_of_app. left. destruct after as [|next after]; [done|].
    apply list_elem_of_bind. exists init_state. split; [|done].
    apply list_elem_of_fmap. eauto.
  - apply elem_of_app. by right.
Qed.

Lemma segments_entries_sound unused_state segments key segment :
  (key, segment) ∈ segments_entries unused_state true segments →
  registry_entry unused_state segments key segment.
Proof.
  destruct segments as [|seg rest]; cbn [segments_entries].
  - intros Hin. by apply elem_of_nil in Hin.
  - intros Hin. apply elem_of_app in Hin as [Hin|Hin].
    + apply list_elem_of_fmap in Hin as (f & Heq & Hf).
      injection Heq as -> ->. by eapply registry_entry_first.
    + by apply (later_entries_sound _ _ _ _ Hin [seg]).
Qed.

Lemma segments_entries_complete unused_state segments key segment :
  registry_entry unused_state segments key segment →
  (key, segment) ∈ segments_entries unused_state true segments.
Proof.
  intros [seg rest f -> Hf|before seg i -> Hbefore Hi
          |before seg after i f -> Hbefore Hafter Hi Hf].
  - cbn [segments_entries]. apply elem_of_app. left.
    apply list_elem_of_fmap. eauto.
  - destruct before as [|b before]; [done|].
    cbn [app segments_entries]. apply elem_of_app. right.
    by apply later_entries_last.
  - destruct before as [|b before]; [done|].
    cbn [app segments_entries]. apply elem_of_app. right.
    by apply later_entries_middle.
Qed.

Lemma registry_entry_pinned unused_state segments key segment :
  registry_entry unused_state segments key segment
  ↔ pinned_entry unused_state segments key segment.
Proof.
  split.
  - intros [seg rest f Hsegments Hf
           |before seg i Hsegments Hbefore Hi
           |before seg after i f Hsegments Hbefore Hafter Hi Hf].
    + exact (pinned_entry_first _ _ seg rest f Hsegments Hf).
    + exact (pinned_entry_last _ _ before seg i Hsegments Hbefore Hi).
    + exact (pinned_entry_middle _ _ before seg after i f
               Hsegments Hbefore Hafter Hi Hf).
  - intros [seg rest f Hsegments Hf
           |before seg i Hsegments Hbefore Hi
           |before seg after i f Hsegments Hbefore Hafter Hi Hf].
    + exact (registry_entry_first _ _ seg rest f Hsegments Hf).
    + exact (registry_entry_last _ _ before seg i Hsegments Hbefore Hi).
    + exact (registry_entry_middle _ _ before seg after i f
               Hsegments Hbefore Hafter Hi Hf).
Qed.

(** C8: the map [segments_one_initial_final] holds, and holds only, trimmed
    copies of the segments with pinned state sets: under the key (unused, f)
    the copy of the first segment whose final states are {f} and whose initial
    states are those of the segment, under (i, unused) the copy of the last
    segment whose initial states are {i} and whose final states are those of
    the segment, under (i, f) the copy of a segment in between whose initial
    states are {i} and whose final states are {f}; an automaton is stored only
    if it has a state or [include_empty] is set, while every such automaton has
    its key in the map; the loop over the segments keeps this guard true of
    every stored automaton from any map of which it is true; and on a
    segmentation of at least two segments [noodlify] builds this map for the
    segments of its automaton with unused = the number of states of this
    automaton, and looks the segments of the noodles up in it with the same
    unused state. *)
Theorem segments_one_initial_final_entries aut include_empty segments :
  (∀ key segment,
     segments_one_initial_final (get_num_of_states aut) include_empty segments
       !! key = Some segment →
     pinned_entry (get_num_of_states aut) segments key segment
     ∧ storable include_empty segment)
  ∧ (∀ key segment,
       pinned_entry (get_num_of_states aut) segments key segment →
       storable include_empty segment →
       is_Some (segments_one_initial_final (get_num_of_states aut)
                  include_empty segments !! key))
  ∧ (∀ at_begin later registry,
       (∀ key segment,
          registry !! key = Some segment → storable include_empty segment) →
       ∀ key segment,
         segments_loop (get_num_of_states aut) include_empty at_begin later
           registry !! key = Some segment →
         storable include_empty segment)
  ∧ (∀ epsilon variableLocations alph useBits segment0 next_segment
       later_segments,
       get_segments_raw aut epsilon
       = segment0 :: next_segment :: later_segments →
       noodlify aut epsilon variableLocations alph include_empty useBits
       = (afaOutput ← print_afa aut segment0 (next_segment :: later_segments)
                         (get_epsilon_depths aut epsilon) variableLocations
                         (N.of_nat (length (get_symbols alph))) useBits;
          noodles ← enumerate_noodles
                      (segments_one_initial_final (get_num_of_states aut)
                         include_empty (get_segments_raw aut epsilon))
                      (get_num_of_states aut)
                      (get_epsilon_depths aut epsilon);
          Some (noodles, afaOutput))).
Proof.
  split; [|split; [|split]].
  - unfold segments_one_initial_final. rewrite segments_loop_entries.
    intros key segment Hlook.
    apply store_entries_lookup_Some in Hlook as [Hlook|[Hin Hst]].
    + by rewrite lookup_empty in Hlook.
    + split; [|done]. by apply registry_entry_pinned, segments_entries_sound.
  - unfold segments_one_initial_final. rewrite segments_loop_entries.
    intros key segment Hentry Hst.
    eapply store_entries_lookup_new; [|done].
    by apply segments_entries_complete, registry_entry_pinned.
  - intros at_begin later registry Hinv key segment.
    rewrite segments_loop_entries. intros Hlook.
    apply store_entries_lookup_Some in Hlook as [Hlook|[_ Hst]]; [|done].
    by eapply Hinv.
  - intros epsilon variableLocations alph useBits segment0 next_segment
      later_segments Hsegments.
    unfold noodlify. by rewrite Hsegments.
Qed.

(** ** The formula [%Final] *)

Lemma back_snoc {A : Type} (d : A) (v : list A) (x : A) : back d (v ++ [x]) = x.
Proof. unfold back. by rewrite last_snoc. Qed.

Lemma visit_initial_states_fold old st inits :
  segmentReachableStates (foldl (visit_initial_state old) st inits)
  = segmentReachableStates st
  ∧ ∀ i, initStateToPreviousNonFinalStates
           (foldl (visit_initial_state old) st inits) !! i
         = if decide (i ∈ inits)
           then Some (back [] (segmentReachableStates st))
           else initStateToPreviousNonFinalStates st !! i.
Proof.
  revert st. induction inits as [|init inits IH]; intros st; cbn [foldl].
  - split; [done|]. intros i. rewrite decide_False; [done|]. apply not_elem_of_nil.
  - destruct (IH (visit_initial_state old st init)) as [Hreach Hmap].
    split; [by rewrite Hreach|].
    intros i. rewrite Hmap. cbn.
    destruct (decide (i ∈ inits)) as [Hin|Hnin].
    + rewrite decide_True; [done|]. by right.
    + rewrite lookup_insert. destruct (decide (init = i)) as [->|Hne].
      * rewrite decide_True; [done|]. by left.
      * rewrite decide_False; [done|].
        intros [->|Hin]%elem_of_cons; done.
Qed.

Lemma visit_segment_spec st seg :
  back [] (segmentReachableStates (visit_segment st seg))
  = get_reachable_states seg
  ∧ ∀ i, initStateToPreviousNonFinalStates (visit_segment st seg) !! i
         = if decide (i ∈ initialstates seg)
           then Some (back [] (segmentReachableStates st))
           else initStateToPreviousNonFinalStates st !! i.
Proof.
  unfold visit_segment. cbn.
  match goal with
  | |- context [foldl (visit_initial_state ?old) ?st1 ?inits] =>
      destruct (visit_initial_states_fold old st1 inits) as [Hreach Hmap]
  end.
  split.
  - apply back_snoc.
  - intros i. by rewrite Hmap.
Qed.

Lemma segment_loop_from st prev later_segments :
  back [] (segmentReachableStates st) = get_reachable_states prev →
  back [] (segmentReachableStates (foldl visit_segment st later_segments))
  = get_reachable_states (back prev later_segments)
  ∧ ∀ i, initStateToPreviousNonFinalStates
           (foldl visit_segment st later_segments) !! i
         = match previous_reachable prev later_segments i with
           | Some reachable => Some reachable
           | None => initStateToPreviousNonFinalStates st !! i
           end.
Proof.
  revert st prev.
  induction later_segments as [|seg rest IH]; intros st prev Hback; cbn [foldl].
  - by split.
  - destruct (visit_segment_spec st seg) as [Hback' Hmap].
    destruct (IH (visit_segment st seg) seg Hback') as [Hlast Hmap'].
    split.
    + rewrite Hlast. f_equal. unfold back. rewrite last_cons.
      by destruct (last rest).
    + intros i. rewrite Hmap'. cbn [previous_reachable].
      destruct (previous_reachable seg rest i); [done|].
      rewrite Hmap, Hback. by case_decide.
Qed.

Lemma segment_loop_spec segment0 later_segments :
  back [] (segmentReachableStates (segment_loop segment0 later_segments))
  = get_reachable_states (back segment0 later_segments)
  ∧ ∀ i, initStateToPreviousNonFinalStates
           (segment_loop segment0 later_segments) !! i
         = previous_reachable segment0 later_segments i.
Proof.
  unfold segment_loop.
  match goal with
  | |- context [foldl visit_segment ?st0 _] =>
      destruct (segment_loop_from st0 segment0 later_segments eq_refl)
        as [Hback Hmap]
  end.
  split; [done|]. intros i. rewrite Hmap.
  destruct (previous_reachable _ _ i); [done|]. apply lookup_empty.
Qed.







(** ** The bit encoding of the symbols *)

Lemma string_app_assoc (s1 s2 s3 : string) :
  (s1 +:+ s2) +:+ s3 = s1 +:+ (s2 +:+ s3).
Proof.
  induction s1 as [|c s1 IH]; [done|].
  change (String c ((s1 +:+ s2) +:+ s3) = String c (s1 +:+ (s2 +:+ s3))).
  by rewrite IH.
Qed.

Lemma count_leading_zeros_log2 w x :
  (0 < x)%N → (x < 2 ^ N.of_nat w)%N →
  count_leading_zeros w x = (N.of_nat w - 1 - N.log2 x)%N.
Proof.
  induction w as [|w IH]; intros Hpos Hlt.
  - cbn in Hlt. lia.
  - cbn [count_leading_zeros].
    rewrite Nat2N.inj_succ, N.pow_succ_r' in Hlt.
    destruct (N.testbit x (N.of_nat w)) eqn:Hbit.
    + apply N.testbit_true in Hbit.
      assert (2 ^ N.of_nat w ≤ x)%N as Hge.
      { destruct (N.le_gt_cases (2 ^ N.of_nat w) x) as [?|Hsmall]; [done|].
        by rewrite N.div_small in Hbit. }
      assert (N.log2 x = N.of_nat w) as ->.
      { apply N.log2_unique; [lia|]. rewrite N.pow_succ_r'. lia. }
      lia.
    + apply N.testbit_false in Hbit.
      assert (x < 2 ^ N.of_nat w)%N as Hsmall.
      { destruct (N.le_gt_cases (2 ^ N.of_nat w) x) as [Hge|?]; [|done].
        assert (x / 2 ^ N.of_nat w < 2)%N
          by (apply N.Div0.div_lt_upper_bound; lia).
        assert (1 ≤ x / 2 ^ N.of_nat w)%N
          by (apply N.div_le_lower_bound; lia).
        assert (x / 2 ^ N.of_nat w = 1)%N as Heq by lia.
        by rewrite Heq in Hbit. }
      rewrite IH by done.
      assert (N.log2 x < N.of_nat w)%N by by apply N.log2_lt_pow2.
      lia.
Qed.

Lemma neededBits_of_log2_up alphabet_size :
  (alphabet_size ≤ 2 ^ 32)%N →
  neededBits_of alphabet_size
  = if (alphabet_size <=? 1)%N then 1%N else N.log2_up alphabet_size.
Proof.
  intros Hle. unfold neededBits_of.
  destruct (N.ltb_spec 1 alphabet_size) as [Hgt|Hsmall].
  - rewrite (proj2 (N.leb_gt _ _)) by done.
    unfold wrap_size_t, size_t_modulus, builtin_clz.
    rewrite (N.mod_small (alphabet_size - 1) (2 ^ 64)) by lia.
    rewrite (N.mod_small (alphabet_size - 1) (2 ^ 32)) by lia.
    rewrite (count_leading_zeros_log2 32) by (cbn; lia).
    rewrite N.log2_up_eqn by done.
    assert (N.log2 (alphabet_size - 1) < 32)%N.
    { apply N.log2_lt_pow2; lia. }
    replace (N.pred alphabet_size) with (alphabet_size - 1)%N by lia.
    cbn. lia.
  - by rewrite (proj2 (N.leb_le _ _)).
Qed.

Lemma bitset32_get (k : nat) (v : N) :
  (k < 32)%nat →
  String.get (31 - k) (bitset32_to_string v)
  = Some (bit_char (N.testbit v (N.of_nat k))).
Proof.
  intros Hk. do 32 (destruct k as [|k]; [reflexivity|]). lia.
Qed.

Lemma print_bit_atom (v startingBit i : N) :
  (i < 32)%N → (startingBit + i < size_t_modulus)%N →
  print_bit (bitset32_to_string v) startingBit i
  = (if negb (i =? 0)%N then " & " else "")
    +:+ ((if N.testbit v i then "" else "!")
         +:+ "a" +:+ pretty (startingBit + i)%N).
Proof.
  intros Hi Hfit. unfold print_bit, wrap_size_t.
  rewrite N.mod_small by done.
  rewrite bitset32_get by lia. rewrite N2Nat.id.
  by destruct (N.testbit v i).
Qed.

Lemma print_all_separated {A : Type} (sep : string) (is_first : A → bool)
    (body : A → string) (l : list A) (isFirst : bool) :
  (∀ x rest, l = x :: rest → is_first x = isFirst) →
  (∀ pre x rest, l = pre ++ x :: rest → pre ≠ [] → is_first x = false) →
  print_all (λ x, (if negb (is_first x) then sep else "") +:+ body x) l
  = print_separated sep body l isFirst.
Proof.
  unfold print_all. revert isFirst.
  induction l as [|x l IH]; intros isFirst Hhead Htail; [done|].
  cbn [foldr print_separated].
  rewrite (Hhead x l eq_refl), string_app_assoc.
  rewrite (IH false).
  - by destruct isFirst.
  - intros y rest ->. by apply (Htail [x] y rest).
  - intros pre y rest -> Hpre. by apply (Htail (x :: pre) y rest).
Qed.

Lemma print_all_ext_in {A : Type} (f g : A → string) (l : list A) :
  (∀ x, x ∈ l → f x = g x) → print_all f l = print_all g l.
Proof.
  unfold print_all. induction l as [|x l IH]; intros Hext; [done|].
  cbn [foldr]. rewrite Hext by left. rewrite IH; [done|].
  intros y Hy. apply Hext. by right.
Qed.

Lemma index_range_lookup (n : N) (k : nat) (i : N) :
  index_range n !! k = Some i ↔ i = N.of_nat k ∧ (N.of_nat k < n)%N.
Proof.
  unfold index_range. rewrite list_lookup_fmap, fmap_Some. split.
  - intros (j & [-> Hlt]%lookup_seq & ->). split; [done|lia].
  - intros [-> Hlt]. exists k. split; [|done]. apply lookup_seq. lia.
Qed.

Lemma elem_of_index_range (n i : N) : i ∈ index_range n ↔ (i < n)%N.
Proof.
  rewrite list_elem_of_lookup. split.
  - intros [k Hk]. apply index_range_lookup in Hk as [-> ?]. done.
  - intros Hlt. exists (N.to_nat i). apply index_range_lookup.
    rewrite N2Nat.id. done.
Qed.

Lemma print_remapped_bits (neededBits remappedSymbol trackNum : N) :
  (neededBits ≤ 32)%N →
  (trackNum * neededBits + neededBits ≤ size_t_modulus)%N →
  print_remapped true neededBits remappedSymbol trackNum
  = bit_atoms neededBits trackNum remappedSymbol.
Proof.
  intros Hbits Hfit. unfold print_remapped, bit_atoms.
  destruct (decide (neededBits = 0%N)) as [->|Hpos]; [done|].
  unfold wrap_size_t at 1. rewrite N.mod_small by lia.
  rewrite <- (print_all_separated " & " (λ i, (i =? 0)%N)).
  - apply print_all_ext_in. intros i Hi%elem_of_index_range.
    apply print_bit_atom; lia.
  - intros x rest Hl.
    assert (index_range neededBits !! 0%nat = Some x) as Hx by by rewrite Hl.
    by apply index_range_lookup in Hx as [-> _].
  - intros pre x rest Hl Hpre.
    assert (index_range neededBits !! length pre = Some x) as Hx.
    { rewrite Hl. by rewrite list_lookup_middle. }
    apply index_range_lookup in Hx as [-> _].
    apply N.eqb_neq. destruct pre; [done|]. cbn [length]. lia.
Qed.

Lemma remap_lookup_table st symToRemap :
  symbolRemapping (remap_lookup st symToRemap).1 !! symToRemap
  = Some (remap_lookup st symToRemap).2.
Proof.
  unfold remap_lookup.
  destruct (symbolRemapping st !! symToRemap) as [found|] eqn:Hfound; cbn.
  - done.
  - apply lookup_insert_eq.
Qed.

Lemma remapSymbol_lookup useBits neededBits st symToRemap trackNum :
  remapSymbol useBits neededBits st symToRemap trackNum
  = ((remap_lookup st symToRemap).1,
     print_remapped useBits neededBits (remap_lookup st symToRemap).2 trackNum).
Proof. unfold remapSymbol. by destruct (remap_lookup st symToRemap). Qed.

Lemma neededBits_of_bounds alphabet_size :
  (alphabet_size ≤ 2 ^ 32)%N →
  (1 ≤ neededBits_of alphabet_size ≤ 32)%N.
Proof.
  intros Hle. rewrite neededBits_of_log2_up by done.
  destruct (N.leb_spec alphabet_size 1) as [Hsmall|Hgt]; [lia|].
  split.
  - apply N.log2_up_pos in Hgt. lia.
  - change 32%N with (N.log2_up (2 ^ 32)). by apply N.log2_up_le_mono.
Qed.

(** C4, as amended: with the bit encoding, the width [neededBits] is 1 for an
    alphabet of at most one symbol and the rounded-up binary logarithm of the
    number of symbols for a larger alphabet (of at most 2^32 symbols), so it
    is between 1 and 32; and a symbol on the track [v] is written as the atoms
    [a(v * neededBits)], [a(v * neededBits + 1)], ..., joined by [&], the atom
    [a(v * neededBits + i)] standing for bit [i] of the remapped symbol (the
    least significant bit first) and negated when that bit is 0. *)
Theorem neededBits_and_bit_atoms :
  (∀ alphabet_size,
     (alphabet_size ≤ 2 ^ 32)%N →
     neededBits_of alphabet_size
     = (if (alphabet_size <=? 1)%N then 1%N else N.log2_up alphabet_size)
     ∧ (1 ≤ neededBits_of alphabet_size ≤ 32)%N)
  ∧ (∀ neededBits st symToRemap trackNum,
       (neededBits ≤ 32)%N →
       (trackNum * neededBits + neededBits ≤ size_t_modulus)%N →
       ∃ remappedSymbol,
         symbolRemapping (remapSymbol true neededBits st symToRemap trackNum).1
           !! symToRemap = Some remappedSymbol
         ∧ (remapSymbol true neededBits st symToRemap trackNum).2
           = bit_atoms neededBits trackNum remappedSymbol).
Proof.
  split.
  - intros alphabet_size Hle. split.
    + by apply neededBits_of_log2_up.
    + by apply neededBits_of_bounds.
  - intros neededBits st symToRemap trackNum Hbits Hfit.
    exists (remap_lookup st symToRemap).2.
    rewrite remapSymbol_lookup. cbn [fst snd]. split.
    + apply remap_lookup_table.
    + by apply print_remapped_bits.
Qed.

(** ** The remapping of the symbols *)

Lemma remap_lookup_mono st sym :
  symbolRemapping st ⊆ symbolRemapping (remap_lookup st sym).1.
Proof.
  unfold remap_lookup.
  destruct (symbolRemapping st !! sym) as [found|] eqn:Hfound; cbn; [done|].
  by apply insert_subseteq.
Qed.

Lemma remap_symbols_mono st syms :
  symbolRemapping st ⊆ symbolRemapping (remap_symbols st syms).
Proof.
  unfold remap_symbols. revert st.
  induction syms as [|sym syms IH]; intros st; cbn [foldl]; [done|].
  etrans; [apply remap_lookup_mono|apply IH].
Qed.

Lemma remap_symbols_app st syms1 syms2 :
  remap_symbols st (syms1 ++ syms2)
  = remap_symbols (remap_symbols st syms1) syms2.
Proof. unfold remap_symbols. by rewrite foldl_app. Qed.

Lemma simulates_nil : simulates (λ st, Some (st, "")) [] (λ _, "").
Proof. intros st. by split. Qed.

Lemma simulates_seq action1 syms1 render1 action2 syms2 render2 :
  simulates action1 syms1 render1 →
  simulates action2 syms2 render2 →
  simulates (λ st, '(st1, out1) ← action1 st;
                   '(st2, out2) ← action2 st1;
                   Some (st2, out1 +:+ out2))
            (syms1 ++ syms2) (λ table, render1 table +:+ render2 table).
Proof.
  intros Hsim1 Hsim2 st.
  destruct (Hsim1 st) as [Hrun1 Hstable1].
  destruct (Hsim2 (remap_symbols st syms1)) as [Hrun2 Hstable2].
  rewrite remap_symbols_app.
  pose proof (remap_symbols_mono (remap_symbols st syms1) syms2) as Hmono.
  split.
  - rewrite Hrun1. cbn. rewrite Hrun2. cbn. by rewrite (Hstable1 _ Hmono).
  - intros table Hsub.
    rewrite (Hstable2 _ Hsub), (Hstable1 _ Hmono).
    rewrite (Hstable1 table); [done|]. by etrans.
Qed.

Lemma simulates_print_all_with {A : Type}
    (item : RemapState → A → option (RemapState * string))
    (syms : A → list Symbol) (render : gmap N N → A → string) (l : list A) :
  (∀ x, x ∈ l → simulates (λ st, item st x) (syms x) (λ table, render table x)) →
  simulates (λ st, print_all_with item st l) (l ≫= syms)
            (λ table, print_all (render table) l).
Proof.
  induction l as [|x l IH]; intros Hitems.
  - apply simulates_nil.
  - cbn [print_all_with mbind list_bind]. unfold print_all. cbn [foldr].
    apply (simulates_seq (λ st, item st x) (syms x) (λ table, render table x)).
    + apply Hitems. by left.
    + apply IH. intros y Hy. apply Hitems. by right.
Qed.

Lemma simulates_remapSymbol useBits neededBits sym trackNum :
  simulates (λ st, Some (remapSymbol useBits neededBits st sym trackNum)) [sym]
            (λ table, render_symbol useBits neededBits table sym trackNum).
Proof.
  intros st. rewrite remapSymbol_lookup. unfold render_symbol.
  cbn [remap_symbols foldl]. split.
  - by rewrite remap_lookup_table.
  - intros table Hsub.
    by rewrite (lookup_weaken _ _ _ _ (remap_lookup_table st sym) Hsub),
         remap_lookup_table.
Qed.

Lemma simulates_print_transitions_from useBits neededBits varNum
    transFromState isFirstTran :
  simulates
    (λ st, Some (print_transitions_from useBits neededBits varNum
                   transFromState isFirstTran st))
    (symbol <$> transFromState)
    (λ table, render_transitions_from useBits neededBits table varNum
                transFromState isFirstTran).
Proof.
  revert isFirstTran.
  induction transFromState as [|tran rest IH]; intros isFirstTran.
  - apply simulates_nil.
  - intros st. cbn [print_transitions_from fmap list_fmap].
    destruct (simulates_remapSymbol useBits neededBits (symbol tran) varNum st)
      as [Hrun1 Hstable1].
    injection Hrun1 as Hrun1. rewrite Hrun1.
    change (symbol tran :: (symbol <$> rest))
      with ([symbol tran] ++ (symbol <$> rest)).
    rewrite remap_symbols_app.
    change (remap_lookup st (symbol tran)).1
      with (remap_symbols st [symbol tran]) in *.
    set (st1 := remap_symbols st [symbol tran]) in *.
    destruct (IH false st1) as [Hrun2 Hstable2].
    injection Hrun2 as Hrun2. rewrite Hrun2.
    pose proof (remap_symbols_mono st1 (symbol <$> rest)) as Hmono.
    unfold render_transitions_from in *. cbn [print_separated].
    split.
    + by rewrite (Hstable1 _ Hmono).
    + intros table Hsub. rewrite (Hstable2 _ Hsub).
      rewrite (Hstable1 _ Hmono). rewrite (Hstable1 table); [done|]. by etrans.
Qed.

Lemma simulates_print_state_transitions useBits neededBits varNum varAut s :
  simulates
    (λ st, Some (print_state_transitions useBits neededBits varNum varAut st s))
    (symbols_of_state varAut s)
    (λ table, render_state useBits neededBits table varNum varAut s).
Proof.
  unfold print_state_transitions, render_state, symbols_of_state.
  destruct (get_transitions_from varAut s) as [|tran rest] eqn:Htrans.
  - apply simulates_nil.
  - cbn [length Nat.eqb]. intros st.
    destruct (simulates_print_transitions_from useBits neededBits varNum
                (tran :: rest) true st) as [Hrun Hstable].
    apply (inj Some) in Hrun. rewrite Hrun. split; [done|].
    intros table Hsub. by rewrite (Hstable _ Hsub).
Qed.

Lemma simulates_print_variable_location useBits neededBits segments reachable
    varNum varLoc :
  (varLoc < length segments)%nat → (varLoc < length reachable)%nat →
  simulates
    (λ st, print_variable_location useBits neededBits segments reachable
             varNum st varLoc)
    (symbols_of_location segments reachable varLoc)
    (λ table, render_location useBits neededBits table segments reachable
                varNum varLoc).
Proof.
  intros [varAut Haut]%lookup_lt_is_Some [states Hstates]%lookup_lt_is_Some.
  unfold print_variable_location, symbols_of_location, render_location.
  rewrite Haut, Hstates. cbn [mbind option_bind].
  apply (simulates_print_all_with
           (λ st s, Some (print_state_transitions useBits neededBits varNum
                            varAut st s))
           (symbols_of_state varAut)
           (λ table, render_state useBits neededBits table varNum varAut)).
  intros s _. apply simulates_print_state_transitions.
Qed.

Lemma simulates_print_variable useBits neededBits segments reachable
    variableLocations varNum :
  locations_in_range variableLocations (length segments) →
  length reachable = length segments →
  (varNum < N.of_nat (length variableLocations))%N →
  simulates
    (λ st, print_variable useBits neededBits segments reachable
             variableLocations st varNum)
    (symbols_of_variable segments reachable variableLocations varNum)
    (λ table, render_variable useBits neededBits table segments reachable
                variableLocations varNum).
Proof.
  intros Hrange Hlen Hvar.
  assert (is_Some (variableLocations !! N.to_nat varNum)) as [locations Hlocs].
  { apply lookup_lt_is_Some. lia. }
  unfold print_variable, symbols_of_variable, render_variable.
  rewrite Hlocs. cbn [mbind option_bind default].
  apply (simulates_print_all_with
           (print_variable_location useBits neededBits segments reachable varNum)
           (symbols_of_location segments reachable)
           (λ table, render_location useBits neededBits table segments
                       reachable varNum)).
  intros varLoc HvarLoc.
  assert (varLoc < length segments)%nat.
  { eapply Hrange; [|done]. by eapply list_elem_of_lookup_2. }
  apply simulates_print_variable_location; [done|]. by rewrite Hlen.
Qed.

Lemma simulates_print_transitions useBits neededBits segments reachable
    variableLocations :
  locations_in_range variableLocations (length segments) →
  length reachable = length segments →
  simulates
    (λ st, print_all_with
             (print_variable useBits neededBits segments reachable
                             variableLocations)
             st (index_range (N.of_nat (length variableLocations))))
    (emitted_symbols segments reachable variableLocations)
    (λ table, render_transitions useBits neededBits table segments reachable
                variableLocations).
Proof.
  intros Hrange Hlen.
  apply (simulates_print_all_with
           (print_variable useBits neededBits segments reachable
                           variableLocations)
           (symbols_of_variable segments reachable variableLocations)
           (λ table, render_variable useBits neededBits table segments
                       reachable variableLocations)).
  intros varNum HvarNum%elem_of_index_range.
  by apply simulates_print_variable.
Qed.

Lemma table_numbers_step st seen sym :
  table_numbers st seen →
  table_numbers (remap_lookup st sym).1
                (if decide (sym ∈ seen) then seen else seen ++ [sym]).
Proof.
  intros [Hnew Htable]. unfold remap_lookup.
  destruct (symbolRemapping st !! sym) as [found|] eqn:Hfound; cbn [fst].
  - apply Htable in Hfound. apply list_elem_of_lookup_2 in Hfound.
    by rewrite decide_True.
  - assert (sym ∉ seen) as Hfresh.
    { intros [k Hk]%list_elem_of_lookup.
      assert (symbolRemapping st !! sym = Some (N.of_nat k)) as Hr.
      { apply Htable. by rewrite Nat2N.id. }
      congruence. }
    rewrite decide_False by done. split; cbn.
    + rewrite length_app, Hnew. cbn. lia.
    + intros sym' r. rewrite lookup_insert. case_decide as Hsym.
      * subst sym'. split.
        -- intros [= <-]. rewrite Hnew, Nat2N.id.
           by rewrite list_lookup_middle.
        -- intros Hlook. apply lookup_app_Some in Hlook as [Hin|[Hge Hlast]].
           ++ apply list_elem_of_lookup_2 in Hin. done.
           ++ apply list_lookup_singleton_Some in Hlast as [Hidx _].
              f_equal. rewrite Hnew. lia.
      * rewrite Htable. split.
        -- intros Hin. by apply lookup_app_l_Some.
        -- intros Hlook. apply lookup_app_Some in Hlook as [Hin|[Hge Hlast]];
             [done|].
           apply list_lookup_singleton_Some in Hlast as [_ Heq]. done.
Qed.

Lemma table_numbers_fold st seen syms :
  table_numbers st seen →
  table_numbers (remap_symbols st syms)
    (foldl (λ seen sym, if decide (sym ∈ seen) then seen else seen ++ [sym])
           seen syms).
Proof.
  unfold remap_symbols. revert st seen.
  induction syms as [|sym syms IH]; intros st seen Hinv; cbn [foldl]; [done|].
  apply IH. by apply table_numbers_step.
Qed.

Lemma remap_symbols_first_occurrences syms :
  table_numbers (remap_symbols {| symbolRemapping := ∅; newSymbol := 0 |} syms)
                (first_occurrences syms).
Proof.
  apply table_numbers_fold. split; [done|].
  intros sym r. cbn. by rewrite lookup_empty, lookup_nil.
Qed.

Lemma visit_segments_length st later_segments :
  length (segmentReachableStates (foldl visit_segment st later_segments))
  = (length (segmentReachableStates st) + length later_segments)%nat.
Proof.
  revert st.
  induction later_segments as [|seg rest IH]; intros st; cbn [foldl length].
  - lia.
  - rewrite IH. unfold visit_segment. cbn [segmentReachableStates].
    match goal with
    | |- context [foldl (visit_initial_state ?old) ?st1 ?inits] =>
        destruct (visit_initial_states_fold old st1 inits) as [-> _]
    end.
    rewrite length_app. cbn. lia.
Qed.

Lemma segment_loop_length segment0 later_segments :
  length (segmentReachableStates (segment_loop segment0 later_segments))
  = S (length later_segments).
Proof. unfold segment_loop. by rewrite visit_segments_length. Qed.

Lemma is_digit_pretty_N_char (x : N) : is_digit (pretty_N_char x) = true.
Proof. unfold pretty_N_char. by repeat case_match. Qed.

Lemma all_digits_pretty_N_go (x : N) (s : string) :
  all_digits s = true → all_digits (pretty_N_go x s) = true.
Proof.
  revert s. induction (N.lt_wf_0 x) as [x _ IH]; intros s Hs.
  assert (x = 0 ∨ 0 < x)%N as [->|Hpos] by lia.
  - by rewrite pretty_N_go_0.
  - rewrite pretty_N_go_step by done. apply IH; [by apply N.div_lt|].
    cbn [all_digits]. by rewrite is_digit_pretty_N_char, Hs.
Qed.

Lemma all_digits_pretty (x : N) : all_digits (pretty x) = true.
Proof.
  unfold pretty, pretty_N. case_decide; [done|].
  by apply all_digits_pretty_N_go.
Qed.

Lemma digit_prefix_unique (d1 d2 r1 r2 : string) :
  all_digits d1 = true → all_digits d2 = true →
  no_leading_digit r1 = true → no_leading_digit r2 = true →
  d1 +:+ r1 = d2 +:+ r2 → d1 = d2.
Proof.
  revert d2. induction d1 as [|c1 d1 IH]; intros [|c2 d2] Hd1 Hd2 Hr1 Hr2 Heq.
  - done.
  - change (r1 = String c2 (d2 +:+ r2)) in Heq. subst r1.
    cbn [all_digits no_leading_digit] in Hd2, Hr1.
    apply andb_true_iff in Hd2 as [Hc2 _]. by rewrite Hc2 in Hr1.
  - change (String c1 (d1 +:+ r1) = r2) in Heq. subst r2.
    cbn [all_digits no_leading_digit] in Hd1, Hr2.
    apply andb_true_iff in Hd1 as [Hc1 _]. by rewrite Hc1 in Hr2.
  - change (String c1 (d1 +:+ r1) = String c2 (d2 +:+ r2)) in Heq.
    injection Heq as -> Heq. f_equal.
    cbn [all_digits] in Hd1, Hd2.
    apply andb_true_iff in Hd1 as [_ Hd1]. apply andb_true_iff in Hd2 as [_ Hd2].
    by apply IH.
Qed.

Lemma no_leading_digit_separated {A : Type} (item : A → string) (l : list A) :
  no_leading_digit (print_separated " & " item l false) = true.
Proof. by destruct l. Qed.

Lemma bit_atoms_track_inj (neededBits remappedSymbol track1 track2 : N) :
  (1 ≤ neededBits)%N →
  bit_atoms neededBits track1 remappedSymbol
  = bit_atoms neededBits track2 remappedSymbol →
  track1 = track2.
Proof.
  intros Hbits. unfold bit_atoms.
  assert (∃ rest, index_range neededBits = 0%N :: rest) as [rest ->].
  { unfold index_range.
    destruct (N.to_nat neededBits) as [|n] eqn:Hn; [lia|]. by eexists. }
  cbn [print_separated]. intros Heq.
  apply (inj (String.app _)) in Heq. rewrite !string_app_assoc in Heq.
  do 2 apply (inj (String.app _)) in Heq.
  apply digit_prefix_unique in Heq;
    [|solve [apply all_digits_pretty|apply no_leading_digit_separated]..].
  apply (inj pretty) in Heq.
  assert (track1 * neededBits = track2 * neededBits)%N as Hmul by lia.
  apply N.mul_cancel_r in Hmul; [done|lia].
Qed.

(** C9: a call of [remapSymbol] only adds to the table [symbolRemapping];
    in one emission the table gives the symbols the numbers 0, 1, 2, ... in
    the order in which the transition loops first meet them, and every
    occurrence of a symbol is printed from that one table: the transition
    lines are those of [render_transitions] for the final table, in which an
    occurrence of a symbol on a track is written as the encoding of the number
    of the symbol on this track, the same at every occurrence on the track;
    and the encoding of a number depends on the track as well: two tracks on
    which a number has the same track atom, or the same bit atoms, are
    equal. *)
Theorem symbol_remapping_stable aut segment0 later_segments epsilon_depths
    variableLocations alphabet_size useBits :
  (∀ neededBits st symToRemap trackNum,
     symbolRemapping st
     ⊆ symbolRemapping (remapSymbol useBits neededBits st symToRemap trackNum).1)
  ∧ (locations_in_range variableLocations (S (length later_segments)) →
     ∃ st,
       (newSymbol st
        = N.of_nat (length (first_occurrences
                              (emitted_symbols (segment0 :: later_segments)
                                 (segmentReachableStates
                                    (segment_loop segment0 later_segments))
                                 variableLocations)))
        ∧ ∀ sym r,
            symbolRemapping st !! sym = Some r
            ↔ first_occurrences
                (emitted_symbols (segment0 :: later_segments)
                   (segmentReachableStates
                      (segment_loop segment0 later_segments))
                   variableLocations) !! N.to_nat r = Some sym)
       ∧ print_afa aut segment0 later_segments epsilon_depths variableLocations
                   alphabet_size useBits
         = Some (print_header useBits
                 +:+ print_initial aut
                 +:+ print_initial_noodles
                       (initialStatesNoodles
                          (segment_loop segment0 later_segments))
                 +:+ print_final
                       (back [] (segmentReachableStates
                                   (segment_loop segment0 later_segments)))
                       (back segment0 (segment0 :: later_segments))
                       (remove_epsilon_sources epsilon_depths
                          (initStateToPreviousNonFinalStates
                             (segment_loop segment0 later_segments)))
                 +:+ render_transitions useBits (neededBits_of alphabet_size)
                       (symbolRemapping st) (segment0 :: later_segments)
                       (segmentReachableStates
                          (segment_loop segment0 later_segments))
                       variableLocations
                 +:+ print_primed_loops
                       (allSegmentsInitialStates
                          (segment_loop segment0 later_segments))
                 +:+ print_marker)
       ∧ ∀ sym r trackNum,
           symbolRemapping st !! sym = Some r →
           render_symbol useBits (neededBits_of alphabet_size)
             (symbolRemapping st) sym trackNum
           = print_remapped useBits (neededBits_of alphabet_size) r trackNum)
  ∧ (∀ neededBits r track1 track2,
       print_remapped false neededBits r track1
       = print_remapped false neededBits r track2 →
       track1 = track2)
  ∧ (∀ neededBits r track1 track2,
       (1 ≤ neededBits ≤ 32)%N →
       (track1 * neededBits + neededBits ≤ size_t_modulus)%N →
       (track2 * neededBits + neededBits ≤ size_t_modulus)%N →
       print_remapped true neededBits r track1
       = print_remapped true neededBits r track2 →
       track1 = track2).
Proof.
  split; [|split; [|split]].
  - intros neededBits st symToRemap trackNum. rewrite remapSymbol_lookup.
    apply remap_lookup_mono.
  - intros Hrange.
    pose proof (segment_loop_length segment0 later_segments) as Hlen.
    destruct (simulates_print_transitions useBits (neededBits_of alphabet_size)
                (segment0 :: later_segments)
                (segmentReachableStates (segment_loop segment0 later_segments))
                variableLocations Hrange Hlen
                {| symbolRemapping := ∅; newSymbol := 0 |}) as [Hrun _].
    eexists. split; [|split].
    + apply remap_symbols_first_occurrences.
    + unfold print_afa, print_transitions. rewrite Hrun. done.
    + intros sym r trackNum Hsym. unfold render_symbol. by rewrite Hsym.
  - intros neededBits r track1 track2 Heq. unfold print_remapped in Heq.
    do 2 apply (inj (String.app _)) in Heq. by apply (inj pretty) in Heq.
  - intros neededBits r track1 track2 [Hpos Hbits] Hfit1 Hfit2 Heq.
    rewrite !print_remapped_bits in Heq by done.
    by apply bit_atoms_track_inj in Heq.
Qed.

(** ** The enumeration of the noodles *)

Lemma wrapped_product_foldl {A : Type} (k : A → N) (l : list A) (a : N) :
  (a < size_t_modulus)%N →
  foldl (λ acc x, wrap_size_t (acc * k x)) a l
  = wrap_size_t (a * foldr (λ x product, k x * product)%N 1%N l).
Proof.
  unfold wrap_size_t. revert a.
  induction l as [|x l IH]; intros a Ha; cbn [foldl foldr].
  - rewrite N.mul_1_r. by rewrite N.mod_small.
  - rewrite IH by (apply N.mod_upper_bound; by compute).
    rewrite N.Div0.mul_mod_idemp_l. f_equal. lia.
Qed.

Lemma product_permutation {A : Type} (k : A → N) (l l' : list A) :
  l ≡ₚ l' →
  foldr (λ x product, k x * product)%N 1%N l
  = foldr (λ x product, k x * product)%N 1%N l'.
Proof.
  induction 1 as [|x l l' _ IH|x y l|l l' l'' _ IH1 _ IH2]; cbn [foldr].
  - done.
  - by rewrite IH.
  - lia.
  - by rewrite IH1.
Qed.

Lemma index_range_NoDup (n : N) : NoDup (index_range n).
Proof.
  unfold index_range. apply NoDup_fmap_2; [apply _|apply NoDup_seq].
Qed.

Lemma dense_depths_lookup epsilon_depths depth :
  dense_depths epsilon_depths →
  (depth < N.of_nat (size epsilon_depths))%N →
  epsilon_depths !! depth = Some (depth_transitions epsilon_depths depth).
Proof.
  intros Hdense Hlt. apply Hdense in Hlt as [transitions Hlook].
  unfold depth_transitions. by rewrite Hlook.
Qed.

Lemma dense_depths_to_list epsilon_depths :
  dense_depths epsilon_depths →
  map_to_list epsilon_depths
  ≡ₚ (λ depth, (depth, depth_transitions epsilon_depths depth))
     <$> index_range (N.of_nat (size epsilon_depths)).
Proof.
  intros Hdense. apply NoDup_Permutation.
  - apply NoDup_map_to_list.
  - apply NoDup_fmap_2; [|apply index_range_NoDup].
    intros d1 d2 Heq. by injection Heq.
  - intros [depth transitions]. rewrite elem_of_map_to_list, list_elem_of_fmap.
    split.
    + intros Hlook. exists depth.
      assert (depth < N.of_nat (size epsilon_depths))%N as Hlt
        by (apply Hdense; by eexists).
      split; [|by apply elem_of_index_range].
      unfold depth_transitions. by rewrite Hlook.
    + intros (d & Heq & Hd%elem_of_index_range). injection Heq as -> ->.
      by apply dense_depths_lookup.
Qed.

Lemma get_num_of_permutations_wraps epsilon_depths :
  dense_depths epsilon_depths →
  get_num_of_permutations epsilon_depths
  = wrap_size_t (number_of_combinations epsilon_depths).
Proof using Type unordered_iteration_perm.
  intros Hdense. unfold get_num_of_permutations, number_of_combinations.
  rewrite (wrapped_product_foldl (λ segment, N.of_nat (length segment.2)))
    by by compute.
  rewrite N.mul_1_l. f_equal.
  rewrite (product_permutation _ _ _ (unordered_iteration_perm _ _)).
  rewrite (product_permutation _ _ _ (dense_depths_to_list _ Hdense)).
  by rewrite foldr_fmap.
Qed.

Lemma radix_below_succ epsilon_depths (depth : nat) :
  radix_below epsilon_depths (N.of_nat (S depth))
  = (radix_below epsilon_depths (N.of_nat depth)
     * N.of_nat (length (depth_transitions epsilon_depths (N.of_nat depth))))%N.
Proof.
  unfold radix_below, index_range. rewrite !Nat2N.id, seq_S, fmap_app.
  cbn [fmap list_fmap Nat.add]. rewrite foldr_app. cbn [foldr].
  generalize (N.of_nat (length (depth_transitions epsilon_depths (N.of_nat depth))))
    as k.
  intros k. induction (N.of_nat <$> seq 0 depth) as [|x l IH]; cbn [foldr].
  - lia.
  - rewrite IH. lia.
Qed.

Lemma choose_epsilon_noodle_digits epsilon_depths index (first count : nat) :
  dense_depths epsilon_depths →
  (first + count ≤ size epsilon_depths)%nat →
  choose_epsilon_noodle epsilon_depths (N.of_nat <$> seq first count)
    (index / radix_below epsilon_depths (N.of_nat first))
  = mapM (λ depth, depth_transitions epsilon_depths depth
                   !! N.to_nat (digit epsilon_depths index depth))
         (N.of_nat <$> seq first count).
Proof.
  intros Hdense. revert first.
  induction count as [|count IH]; intros first Hle; [done|].
  cbn [seq fmap list_fmap choose_epsilon_noodle mapM].
  rewrite (dense_depths_lookup _ (N.of_nat first)) by (done || lia).
  cbn [mbind option_bind].
  set (transitions := depth_transitions epsilon_depths (N.of_nat first)).
  destruct (N.eqb_spec (N.of_nat (length transitions)) 0) as [Hzero|Hpos].
  - assert (transitions = []) as -> by (apply nil_length_inv; lia). done.
  - assert (((index / radix_below epsilon_depths (N.of_nat first))
             mod N.of_nat (length transitions))%N
            = digit epsilon_depths index (N.of_nat first)) as -> by done.
    destruct (transitions !! N.to_nat (digit epsilon_depths index (N.of_nat first)))
      as [chosen|]; [|done].
    cbn [mbind option_bind].
    rewrite N.Div0.div_div. unfold transitions.
    rewrite <- radix_below_succ. rewrite IH by lia.
    by destruct (mapM _ _).
Qed.

Lemma choose_epsilon_noodle_combination epsilon_depths index :
  dense_depths epsilon_depths →
  choose_epsilon_noodle epsilon_depths
    (index_range (N.of_nat (size epsilon_depths))) index
  = combination epsilon_depths index.
Proof.
  intros Hdense. unfold combination, index_range. rewrite Nat2N.id.
  rewrite <- (choose_epsilon_noodle_digits _ index 0) by (done || lia).
  by rewrite N.div_1_r.
Qed.

Lemma make_noodle_combination registry unused_state epsilon_noodle :
  epsilon_noodle ≠ [] →
  make_noodle registry unused_state epsilon_noodle
  = Some (noodle_of_combination registry unused_state epsilon_noodle).
Proof.
  destruct epsilon_noodle as [|first rest]; [done|]. intros _.
  unfold make_noodle, noodle_of_combination, back.
  destruct (last_is_Some (first :: rest)) as [_ [final Hfinal]]; [done|].
  rewrite Hfinal. done.
Qed.

Lemma product_pos_factors {A : Type} (k : A → N) (l : list A) (x : A) :
  (0 < foldr (λ x product, k x * product) 1 l)%N → x ∈ l → (0 < k x)%N.
Proof.
  induction l as [|y l IH]; cbn [foldr]; intros Hpos Hin.
  - by apply elem_of_nil in Hin.
  - apply elem_of_cons in Hin as [->|Hin]; [lia|]. apply IH; [lia|done].
Qed.

Lemma combination_is_Some epsilon_depths index :
  (0 < number_of_combinations epsilon_depths)%N →
  size epsilon_depths ≠ 0%nat →
  ∃ epsilon_noodle,
    combination epsilon_depths index = Some epsilon_noodle
    ∧ epsilon_noodle ≠ [].
Proof.
  intros Hpos Hsize.
  assert (is_Some (combination epsilon_depths index)) as [epsilon_noodle Hcomb].
  { unfold combination. apply mapM_is_Some, Forall_forall.
    intros depth Hdepth. apply lookup_lt_is_Some.
    pose proof (product_pos_factors _ _ depth Hpos Hdepth) as Hk. cbn in Hk.
    unfold digit.
    pose proof (N.mod_upper_bound
                  (index / radix_below epsilon_depths depth)
                  (N.of_nat (length (depth_transitions epsilon_depths depth))))
      as Hmod.
    lia. }
  exists epsilon_noodle. split; [done|].
  apply length_mapM in Hcomb. intros ->. cbn in Hcomb.
  unfold index_range in Hcomb. rewrite length_fmap, length_seq in Hcomb. lia.
Qed.

Lemma enumeration_steps registry unused_state epsilon_depths indices noodles :
  dense_depths epsilon_depths →
  (0 < number_of_combinations epsilon_depths)%N →
  size epsilon_depths ≠ 0%nat →
  foldl (enumeration_step registry unused_state epsilon_depths
           (N.of_nat (size epsilon_depths)))
        (Some noodles) indices
  = Some (noodles
          ++ omap (λ index,
                     combination epsilon_depths index
                     ≫= noodle_of_combination registry unused_state)
                  indices).
Proof.
  intros Hdense Hpos Hsize. revert noodles.
  induction indices as [|index indices IH]; intros noodles;
    cbn [foldl omap list_omap].
  - by rewrite app_nil_r.
  - unfold enumeration_step at 2. cbn [mbind option_bind].
    rewrite choose_epsilon_noodle_combination by done.
    destruct (combination_is_Some epsilon_depths index Hpos Hsize)
      as (epsilon_noodle & Hcomb & Hne).
    rewrite Hcomb. cbn [mbind option_bind].
    rewrite make_noodle_combination by done. cbn [mbind option_bind].
    destruct (noodle_of_combination registry unused_state epsilon_noodle)
      as [noodle|]; rewrite IH; [|done].
    by rewrite <- app_assoc.
Qed.

Lemma index_range_length (n : N) : length (index_range n) = N.to_nat n.
Proof. unfold index_range. by rewrite length_fmap, length_seq. Qed.

Lemma omap_length_le {A B : Type} (f : A → option B) (l : list A) :
  (length (omap f l) ≤ length l)%nat
  ∧ (length (omap f l) = length l ↔ ∀ x, x ∈ l → is_Some (f x)).
Proof.
  induction l as [|x l [IHle IHeq]]; cbn [omap list_omap length].
  - split; [done|]. split; [|done]. intros _ x Hx. by apply elem_of_nil in Hx.
  - destruct (f x) as [y|] eqn:Hfx; cbn [length]; (split; [lia|]).
    + split.
      * intros Hlen x' [->|Hx']%elem_of_cons; [by rewrite Hfx|].
        apply IHeq; [lia|done].
      * intros Hall. f_equal. apply IHeq. intros x' Hx'. apply Hall. by right.
    + split; [lia|]. intros Hall.
      destruct (Hall x) as [y Hy]; [by left|]. congruence.
Qed.

Lemma product_zero_factor {A : Type} (k : A → N) (l : list A) (x : A) :
  x ∈ l → k x = 0%N → foldr (λ x product, k x * product)%N 1%N l = 0%N.
Proof.
  induction l as [|y l IH]; cbn [foldr]; intros Hin Hzero.
  - by apply elem_of_nil in Hin.
  - apply elem_of_cons in Hin as [<-|Hin]; [lia|]. rewrite IH by done. lia.
Qed.

(** Without wrap-around the enumeration is the one of C5: when the depths
    are 0, ..., D - 1 with D at least 1 and the number N of combinations is
    below 2^64, the indices 0, ..., N - 1 are visited in increasing order, the
    combination of an index takes at every depth the transition at the
    mixed-radix digit of the index, and the result lists, in this order, the
    noodles of the combinations for which every lookup finds a segment. *)
Theorem enumerate_noodles_mixed_radix registry unused_state epsilon_depths :
  dense_depths epsilon_depths →
  size epsilon_depths ≠ 0%nat →
  (number_of_combinations epsilon_depths < size_t_modulus)%N →
  enumerate_noodles registry unused_state epsilon_depths
  = Some (omap (λ index,
                  combination epsilon_depths index
                  ≫= noodle_of_combination registry unused_state)
               (index_range (number_of_combinations epsilon_depths))).
Proof using Type unordered_iteration_perm.
  intros Hdense Hsize Hfit. unfold enumerate_noodles.
  rewrite get_num_of_permutations_wraps by done.
  unfold wrap_size_t. rewrite N.mod_small by done.
  destruct (decide (number_of_combinations epsilon_depths = 0%N)) as [->|Hpos].
  - done.
  - rewrite enumeration_steps by (done || lia). done.
Qed.

(** Without wrap-around the length of the result is the one of C6: at most
    the number N of combinations, equal to N exactly when the noodle of every
    combination is found, and 0 when some depth has no transition. *)
Theorem enumerate_noodles_length registry unused_state epsilon_depths :
  dense_depths epsilon_depths →
  size epsilon_depths ≠ 0%nat →
  (number_of_combinations epsilon_depths < size_t_modulus)%N →
  ∃ noodles,
    enumerate_noodles registry unused_state epsilon_depths = Some noodles
    ∧ (N.of_nat (length noodles) ≤ number_of_combinations epsilon_depths)%N
    ∧ (N.of_nat (length noodles) = number_of_combinations epsilon_depths
       ↔ ∀ index,
           (index < number_of_combinations epsilon_depths)%N →
           is_Some (combination epsilon_depths index
                    ≫= noodle_of_combination registry unused_state))
    ∧ (∀ depth,
         (depth < N.of_nat (size epsilon_depths))%N →
         depth_transitions epsilon_depths depth = [] →
         noodles = []).
Proof using Type unordered_iteration_perm.
  intros Hdense Hsize Hfit. eexists. split.
  { by apply enumerate_noodles_mixed_radix. }
  match goal with
  | |- context [omap ?f ?l] =>
      destruct (omap_length_le f l) as [Hle Heq]
  end.
  rewrite index_range_length in Hle, Heq.
  split; [lia|]. split.
  - split.
    + intros Hlen index Hindex. apply Heq; [lia|].
      by apply elem_of_index_range.
    + intros Hall.
      cut (∀ A (l : list A) (n : N), length l = N.to_nat n → N.of_nat (length l) = n).
      { intros Hcut. apply Hcut. apply Heq.
        intros index Hindex%elem_of_index_range. by apply Hall. }
      intros A l n ->. by rewrite N2Nat.id.
  - intros depth Hdepth Hempty.
    assert (number_of_combinations epsilon_depths = 0%N) as ->; [|done].
    unfold number_of_combinations.
    apply (product_zero_factor
             (λ depth, N.of_nat (length (depth_transitions epsilon_depths depth)))
             _ depth).
    + by apply elem_of_index_range.
    + by rewrite Hempty.
Qed.

(** ** The equation driver *)

Lemma unify_left_automata_lookup left_automata heap l :
  unify_left_automata left_automata heap !! l
  = Nat.iter (length (filter (λ x, x = l) left_automata))
             (λ aut, unify_final (unify_initial aut))
    <$> heap !! l.
Proof.
  unfold unify_left_automata.
  revert heap. induction left_automata as [|a la IH]; intros heap; cbn [foldl].
  - cbn. by destruct (heap !! l).
  - rewrite IH. rewrite lookup_alter. rewrite filter_cons.
    destruct (decide (a = l)) as [->|Hne].
    + cbn [length].
      destruct (heap !! l) as [x|]; [|done].
      set (f := λ aut, unify_final (unify_initial aut)).
      change (Some (Nat.iter (length (filter (λ x, x = l) la)) f (f x))
              = Some (Nat.iter (S (length (filter (λ x, x = l) la))) f x)).
      by rewrite Nat.iter_succ_r.
    + done.
Qed.

(** C2: the overload that takes references applies [unify_initial] and
    [unify_final] to the automaton behind every element of the left side on
    every call, whatever the other arguments are (so also when the call returns
    early); the overload that takes pointers does the same when [params] maps
    [reduce] to forward, backward or bidirectional, and leaves every automaton
    as it was otherwise. *)
Theorem noodlify_for_equation_unify heap left_automata right_automaton
    variableLocations include_empty params :
  (∀ l, (noodlify_for_equation_ref heap left_automata right_automaton
           variableLocations include_empty params).1 !! l
        = Nat.iter (length (filter (λ x, x = l) left_automata))
                   (λ aut, unify_final (unify_initial aut))
          <$> heap !! l)
  ∧ (noodlify_for_equation_ptr heap left_automata right_automaton
       variableLocations include_empty params).1
    = if decide (params !! "reduce"
                 ∈ [Some "forward"; Some "backward"; Some "bidirectional"])
      then (noodlify_for_equation_ref heap left_automata right_automaton
              variableLocations include_empty params).1
      else heap.
Proof.
  split.
  - intros l. cbn. apply unify_left_automata_lookup.
  - cbn. unfold reduce_value_of.
    destruct (params !! "reduce") as [v|] eqn:Hv; cbn.
    + unfold reduce_requested.
      case_decide as Hin; rewrite !elem_of_cons, elem_of_nil in Hin.
      * destruct Hin as [Hin|[Hin|[Hin|[]]]]; injection Hin as ->; reflexivity.
      * destruct (String.eqb_spec v "forward") as [->|_];
          [exfalso; apply Hin; auto|].
        destruct (String.eqb_spec v "backward") as [->|_];
          [exfalso; apply Hin; auto|].
        destruct (String.eqb_spec v "bidirectional") as [->|_];
          [exfalso; apply Hin; auto|].
        by destruct (String.eqb v "").
    + case_decide as Hin; [|done].
      rewrite !elem_of_cons, elem_of_nil in Hin.
      by destruct Hin as [Hin|[Hin|[Hin|[]]]].
Qed.

(** C1: in both overloads, when the trimmed product of the concatenated left
    side and the right side has an empty language, the call returns the empty
    sequence of noodles and nothing is written to the sink. *)
Theorem noodlify_for_equation_empty_product heap left_automata right_automaton
    variableLocations include_empty params :
  (∀ first_automaton next_automata,
     mapM (λ left_aut, unify_left_automata left_automata heap !! left_aut)
          left_automata
     = Some (first_automaton :: next_automata) →
     is_lang_empty (build_product first_automaton next_automata right_automaton).2
     = true →
     (noodlify_for_equation_ref heap left_automata right_automaton
        variableLocations include_empty params).2 = Some ([], ""))
  ∧ (∀ first_automaton next_automata,
       mapM (λ left_aut,
               (if reduce_requested (reduce_value_of params)
                then unify_left_automata left_automata heap
                else heap) !! left_aut)
            left_automata
       = Some (first_automaton :: next_automata) →
       is_lang_empty (build_product first_automaton next_automata right_automaton).2
       = true →
       (noodlify_for_equation_ptr heap left_automata right_automaton
          variableLocations include_empty params).2 = Some ([], "")).
Proof.
  split; intros first_automaton next_automata Hderef Hempty; cbn.
  - destruct (bool_decide (left_automata = []) || is_lang_empty right_automaton);
      [done|].
    rewrite Hderef. cbn.
    destruct (build_product _ _ _) as [[alphabet epsilon] product].
    cbn in Hempty. by rewrite Hempty.
  - destruct (bool_decide (left_automata = []) || is_lang_empty right_automaton);
      [done|].
    rewrite Hderef. cbn.
    destruct (build_product _ _ _) as [[alphabet epsilon] product].
    cbn in Hempty. by rewrite Hempty.
Qed.

(** ** Further properties of the enumeration *)

Lemma get_num_of_permutations_map_to_list epsilon_depths :
  get_num_of_permutations epsilon_depths
  = wrap_size_t (product_of_depth_sizes epsilon_depths).
Proof using Type unordered_iteration_perm.
  unfold get_num_of_permutations, product_of_depth_sizes.
  rewrite (wrapped_product_foldl (λ segment, N.of_nat (length segment.2)))
    by by compute.
  rewrite N.mul_1_l. f_equal.
  apply (product_permutation
           (λ segment : N * list Trans, N.of_nat (length segment.2))),
        unordered_iteration_perm.
Qed.

Lemma get_num_of_permutations_zero epsilon_depths depth :
  epsilon_depths !! depth = Some [] →
  get_num_of_permutations epsilon_depths = 0%N.
Proof using Type unordered_iteration_perm.
  intros Hlook. rewrite get_num_of_permutations_map_to_list.
  unfold product_of_depth_sizes.
  rewrite (product_zero_factor
             (λ segment : N * list Trans, N.of_nat (length segment.2))
             _ (depth, [])); [done| |done].
  by apply elem_of_map_to_list.
Qed.

(** X1: the number that [get_num_of_permutations] returns does not depend on
    the order in which the unordered map is visited: it is the product of the
    numbers of transitions of all depths, reduced modulo 2^64.  It is 1 for
    the map without depths, 0 as soon as one depth has no transition, and the
    product itself when the product is below 2^64. *)
Theorem get_num_of_permutations_product epsilon_depths :
  get_num_of_permutations epsilon_depths
  = (product_of_depth_sizes epsilon_depths mod 2 ^ 64)%N
  ∧ (epsilon_depths = ∅ → get_num_of_permutations epsilon_depths = 1%N)
  ∧ (∀ depth,
       epsilon_depths !! depth = Some [] →
       get_num_of_permutations epsilon_depths = 0%N)
  ∧ ((product_of_depth_sizes epsilon_depths < 2 ^ 64)%N →
     get_num_of_permutations epsilon_depths
     = product_of_depth_sizes epsilon_depths).
Proof using Type unordered_iteration_perm.
  split; [apply get_num_of_permutations_map_to_list|].
  split; [|split].
  - intros ->. rewrite get_num_of_permutations_map_to_list.
    unfold product_of_depth_sizes. by rewrite map_to_list_empty.
  - apply get_num_of_permutations_zero.
  - intros Hfit. rewrite get_num_of_permutations_map_to_list.
    unfold wrap_size_t. by apply N.mod_small.
Qed.

Lemma enumeration_steps_None registry unused_state epsilon_depths size indices :
  foldl (enumeration_step registry unused_state epsilon_depths size) None indices
  = None.
Proof. by induction indices. Qed.

Lemma enumerate_noodles_wrapped registry unused_state epsilon_depths :
  dense_depths epsilon_depths →
  size epsilon_depths ≠ 0%nat →
  enumerate_noodles registry unused_state epsilon_depths
  = Some (omap (λ index,
                  combination epsilon_depths index
                  ≫= noodle_of_combination registry unused_state)
               (index_range (get_num_of_permutations epsilon_depths))).
Proof using Type unordered_iteration_perm.
  intros Hdense Hsize. unfold enumerate_noodles.
  destruct (decide (get_num_of_permutations epsilon_depths = 0%N)) as [->|Hpos].
  - done.
  - rewrite enumeration_steps; [done|done| |done].
    rewrite get_num_of_permutations_wraps in Hpos by done.
    destruct (decide (number_of_combinations epsilon_depths = 0%N)) as [Hzero|];
      [|lia].
    by rewrite Hzero in Hpos.
Qed.

Lemma print_afa_is_Some aut segment0 later_segments epsilon_depths
    variableLocations alphabet_size useBits :
  locations_in_range variableLocations (S (length later_segments)) →
  is_Some (print_afa aut segment0 later_segments epsilon_depths
                     variableLocations alphabet_size useBits).
Proof.
  intros Hrange.
  destruct (simulates_print_transitions useBits (neededBits_of alphabet_size)
              (segment0 :: later_segments)
              (segmentReachableStates (segment_loop segment0 later_segments))
              variableLocations Hrange (segment_loop_length _ _)
              {| symbolRemapping := ∅; newSymbol := 0 |}) as [Hrun _].
  unfold print_afa, print_transitions. rewrite Hrun. by eexists.
Qed.

(** X2: when some depth of the segmentation has no epsilon transition and
    every variable location is the index of a segment, [noodlify] returns the
    empty sequence of noodles (the text for the alternating automaton is still
    written). *)
Theorem noodlify_depth_without_transitions aut epsilon variableLocations alph
    include_empty useBits segment0 next_segment later_segments depth :
  get_segments_raw aut epsilon = segment0 :: next_segment :: later_segments →
  locations_in_range variableLocations (S (S (length later_segments))) →
  get_epsilon_depths aut epsilon !! depth = Some [] →
  ∃ afaOutput,
    noodlify aut epsilon variableLocations alph include_empty useBits
    = Some ([], afaOutput)
    ∧ print_afa aut segment0 (next_segment :: later_segments)
        (get_epsilon_depths aut epsilon) variableLocations
        (N.of_nat (length (get_symbols alph))) useBits
      = Some afaOutput.
Proof using Type unordered_iteration_perm.
  intros Hsegments Hrange Hdepth. unfold noodlify. rewrite Hsegments.
  destruct (print_afa_is_Some aut segment0 (next_segment :: later_segments)
              (get_epsilon_depths aut epsilon) variableLocations
              (N.of_nat (length (get_symbols alph))) useBits Hrange)
    as [afaOutput Hprint].
  exists afaOutput. rewrite Hprint. cbn [mbind option_bind].
  unfold enumerate_noodles.
  by rewrite (get_num_of_permutations_zero _ depth Hdepth).
Qed.


Lemma choose_epsilon_noodle_missing epsilon_depths depths temp depth :
  depth ∈ depths → epsilon_depths !! depth = None →
  choose_epsilon_noodle epsilon_depths depths temp = None.
Proof.
  intros Hin Hmissing. revert temp.
  induction depths as [|d depths IH]; intros temp.
  - by apply elem_of_nil in Hin.
  - cbn [choose_epsilon_noodle].
    destruct (epsilon_depths !! d) as [transitions|] eqn:Hd; [|done].
    cbn [mbind option_bind].
    destruct (N.of_nat (length transitions) =? 0)%N; [done|].
    destruct (transitions !! _); [|done]. cbn [mbind option_bind].
    apply elem_of_cons in Hin as [->|Hin]; [congruence|].
    by rewrite IH.
Qed.

(** X4: the depths are read with [at]: when a depth below the number of
    depths is missing from the map and [get_num_of_permutations] is not 0,
    the first index already fails and the enumeration does not return
    normally. *)
Theorem enumerate_noodles_missing_depth registry unused_state epsilon_depths
    depth :
  (depth < N.of_nat (size epsilon_depths))%N →
  epsilon_depths !! depth = None →
  get_num_of_permutations epsilon_depths ≠ 0%N →
  enumerate_noodles registry unused_state epsilon_depths = None.
Proof.
  intros Hdepth Hmissing Hpos. unfold enumerate_noodles.
  assert (∃ rest, index_range (get_num_of_permutations epsilon_depths)
                  = 0%N :: rest) as [rest ->].
  { unfold index_range.
    destruct (N.to_nat (get_num_of_permutations epsilon_depths)) as [|n] eqn:Hn;
      [lia|].
    by eexists. }
  cbn [foldl]. unfold enumeration_step at 2. cbn [mbind option_bind].
  rewrite (choose_epsilon_noodle_missing _ _ _ depth);
    [apply enumeration_steps_None| |done].
  by apply elem_of_index_range.
Qed.

Lemma choose_epsilon_noodle_members epsilon_depths depths temp epsilon_noodle :
  choose_epsilon_noodle epsilon_depths depths temp = Some epsilon_noodle →
  Forall2 (λ depth tran, tran ∈ depth_transitions epsilon_depths depth)
          depths epsilon_noodle.
Proof.
  revert temp epsilon_noodle.
  induction depths as [|d depths IH]; intros temp epsilon_noodle;
    cbn [choose_epsilon_noodle].
  - intros [= <-]. constructor.
  - destruct (epsilon_depths !! d) as [transitions|] eqn:Hd; [|done].
    cbn [mbind option_bind].
    destruct (N.of_nat (length transitions) =? 0)%N; [done|].
    destruct (transitions !! _) as [chosen|] eqn:Hchosen; [|done].
    cbn [mbind option_bind].
    destruct (choose_epsilon_noodle epsilon_depths depths _) as [rest|] eqn:Hrest;
      [|done].
    intros [= <-]. constructor; [|by eapply IH].
    unfold depth_transitions. rewrite Hd. by eapply list_elem_of_lookup_2.
Qed.

Lemma middle_segments_cons registry iter next_iter rest :
  middle_segments registry (iter :: next_iter :: rest)
  = segment ← registry !! (tgt iter, src next_iter);
    (segment ::.) <$> middle_segments registry (next_iter :: rest).
Proof. done. Qed.

Lemma middle_keys_cons iter next_iter rest :
  middle_keys (iter :: next_iter :: rest)
  = (tgt iter, src next_iter) :: middle_keys (next_iter :: rest).
Proof. done. Qed.

Lemma middle_segments_keys registry epsilon_noodle middle :
  middle_segments registry epsilon_noodle = Some middle →
  Forall2 (λ key segment, registry !! key = Some segment)
          (middle_keys epsilon_noodle) middle.
Proof.
  revert middle.
  induction epsilon_noodle as [|iter rest IH]; intros middle.
  - intros [= <-]. constructor.
  - destruct rest as [|next_iter rest'].
    + intros [= <-]. constructor.
    + rewrite middle_segments_cons, middle_keys_cons.
      destruct (registry !! (tgt iter, src next_iter)) as [segment|] eqn:Hkey;
        [|done].
      cbn [mbind option_bind].
      destruct (middle_segments registry (next_iter :: rest')) as [later|];
        [|done].
      intros [= <-]. constructor; [done|]. by apply IH.
Qed.

Lemma middle_keys_length epsilon_noodle :
  length (middle_keys epsilon_noodle) = pred (length epsilon_noodle).
Proof.
  induction epsilon_noodle as [|iter rest IH]; [done|].
  destruct rest as [|next_iter rest']; [done|].
  rewrite middle_keys_cons. cbn [length] in *. by rewrite IH.
Qed.

Lemma make_noodle_keys registry unused_state epsilon_noodle noodle :
  make_noodle registry unused_state epsilon_noodle = Some (Some noodle) →
  Forall2 (λ key segment, registry !! key = Some segment)
          (noodle_keys unused_state epsilon_noodle) noodle.
Proof.
  destruct epsilon_noodle as [|first rest]; [done|].
  unfold make_noodle, noodle_keys.
  destruct (registry !! (unused_state, src first)) as [first_segment|] eqn:Hfirst;
    [|done].
  cbn [mbind option_bind].
  destruct (middle_segments registry (first :: rest)) as [middle|] eqn:Hmiddle;
    [|done].
  cbn [mbind option_bind].
  destruct (registry !! (tgt (back first (first :: rest)), unused_state))
    as [last_segment|] eqn:Hlast; [|done].
  cbn [mbind option_bind]. intros [= <-].
  constructor; [done|]. apply Forall2_app.
  - by apply middle_segments_keys.
  - by constructor.
Qed.

Lemma enumeration_steps_invariant (P : Noodle → Prop) registry unused_state
    epsilon_depths size indices noodles result :
  (∀ index epsilon_noodle noodle,
     choose_epsilon_noodle epsilon_depths (index_range size) index
     = Some epsilon_noodle →
     make_noodle registry unused_state epsilon_noodle = Some (Some noodle) →
     P noodle) →
  Forall P noodles →
  foldl (enumeration_step registry unused_state epsilon_depths size)
        (Some noodles) indices = Some result →
  Forall P result.
Proof.
  intros Hstep. revert noodles.
  induction indices as [|index indices IH]; intros noodles Hnoodles;
    cbn [foldl].
  - by intros [= <-].
  - unfold enumeration_step at 2. cbn [mbind option_bind].
    destruct (choose_epsilon_noodle epsilon_depths (index_range size) index)
      as [epsilon_noodle|] eqn:Hchoose; cbn [mbind option_bind];
      [|by rewrite enumeration_steps_None].
    destruct (make_noodle registry unused_state epsilon_noodle)
      as [[noodle|]|] eqn:Hmake; cbn [mbind option_bind];
      [| |by rewrite enumeration_steps_None].
    + apply IH. apply Forall_app. split; [done|].
      constructor; [|constructor]. by eapply Hstep.
    + by apply IH.
Qed.

Lemma segments_one_initial_final_sound unused_state include_empty segments
    key segment :
  segments_one_initial_final unused_state include_empty segments !! key
  = Some segment →
  registry_entry unused_state segments key segment
  ∧ storable include_empty segment.
Proof.
  unfold segments_one_initial_final. rewrite segments_loop_entries.
  intros [Hold|[Hin Hstorable]]%store_entries_lookup_Some.
  - by rewrite lookup_empty in Hold.
  - split; [by apply segments_entries_sound|done].
Qed.

Lemma segments_one_initial_final_complete unused_state include_empty segments
    key segment :
  registry_entry unused_state segments key segment →
  storable include_empty segment →
  is_Some (segments_one_initial_final unused_state include_empty segments !! key).
Proof.
  intros Hentry Hstorable.
  unfold segments_one_initial_final. rewrite segments_loop_entries.
  eapply store_entries_lookup_new; [|done].
  by apply segments_entries_complete.
Qed.

(** X5: every noodle that [noodlify] returns on a segmentation of at least
    two segments follows one epsilon transition of every depth: it has one
    automaton more than there are depths, and its automata are the entries of
    the map of the segments under the keys (unused, source of the first
    transition), (target of a transition, source of the next one), ...,
    (target of the last transition, unused).  The automaton under each of
    these keys is the trimmed copy of a segment whose initial or final states
    are pinned as the key says (the first segment with the one final state,
    the last segment with the one initial state, a segment in between with
    both), and it has a state unless [include_empty] is set. *)
Theorem noodlify_noodles_follow_transitions aut epsilon variableLocations alph
    include_empty useBits segment0 next_segment later_segments noodles
    afaOutput noodle :
  get_segments_raw aut epsilon = segment0 :: next_segment :: later_segments →
  noodlify aut epsilon variableLocations alph include_empty useBits
  = Some (noodles, afaOutput) →
  noodle ∈ noodles →
  ∃ epsilon_noodle,
    Forall2 (λ depth tran,
               tran ∈ depth_transitions (get_epsilon_depths aut epsilon) depth)
            (index_range (N.of_nat (size (get_epsilon_depths aut epsilon))))
            epsilon_noodle
    ∧ Forall2 (λ key segment,
                 segments_one_initial_final (get_num_of_states aut)
                   include_empty (segment0 :: next_segment :: later_segments)
                   !! key = Some segment
                 ∧ pinned_entry (get_num_of_states aut)
                     (segment0 :: next_segment :: later_segments) key segment
                 ∧ storable include_empty segment)
              (noodle_keys (get_num_of_states aut) epsilon_noodle) noodle
    ∧ length noodle = S (size (get_epsilon_depths aut epsilon)).
Proof.
  intros Hsegments Hrun Hnoodle. unfold noodlify in Hrun.
  rewrite Hsegments in Hrun.
  destruct (print_afa _ _ _ _ _ _ _) as [text|]; [|done].
  cbn [mbind option_bind] in Hrun.
  destruct (enumerate_noodles _ _ _) as [result|] eqn:Henum; [|done].
  injection Hrun as <- <-.
  revert noodle Hnoodle. apply Forall_forall.
  eapply enumeration_steps_invariant; [|constructor|exact Henum].
  intros index epsilon_noodle noodle Hchoose Hmake.
  exists epsilon_noodle.
  pose proof (choose_epsilon_noodle_members _ _ _ _ Hchoose) as Hmembers.
  pose proof (make_noodle_keys _ _ _ _ Hmake) as Hkeys.
  split; [done|]. split.
  - eapply Forall2_impl; [exact Hkeys|].
    intros key segment Hkey. cbv beta in Hkey. split; [done|].
    apply segments_one_initial_final_sound in Hkey as [Hentry Hstorable].
    split; [by apply registry_entry_pinned|done].
  - apply Forall2_length in Hkeys as <-.
    apply Forall2_length in Hmembers. rewrite index_range_length in Hmembers.
    destruct epsilon_noodle as [|first rest]; [done|].
    unfold noodle_keys. cbn [length]. rewrite length_app, middle_keys_length.
    cbn [length] in *. lia.
Qed.

Lemma middle_segments_is_Some registry epsilon_noodle :
  (∀ position before after,
     epsilon_noodle !! position = Some before →
     epsilon_noodle !! S position = Some after →
     is_Some (registry !! (tgt before, src after))) →
  is_Some (middle_segments registry epsilon_noodle).
Proof.
  induction epsilon_noodle as [|iter rest IH]; intros Hkeys; [by eexists|].
  destruct rest as [|next_iter rest']; [by eexists|].
  rewrite middle_segments_cons.
  destruct (Hkeys 0%nat iter next_iter eq_refl eq_refl) as [segment ->].
  cbn [mbind option_bind].
  destruct IH as [later ->]; [|by eexists].
  intros position before after Hbefore Hafter.
  by apply (Hkeys (S position)).
Qed.

Lemma noodle_of_combination_is_Some unused_state include_empty segment0
    later_segments epsilon_depths epsilon_noodle :
  later_segments ≠ [] →
  size epsilon_depths = length later_segments →
  epsilon_transitions_connect (segment0 :: later_segments) epsilon_depths →
  (∀ key segment,
     registry_entry unused_state (segment0 :: later_segments) key segment →
     storable include_empty segment) →
  Forall2 (λ depth tran, tran ∈ depth_transitions epsilon_depths depth)
          (index_range (N.of_nat (size epsilon_depths))) epsilon_noodle →
  is_Some (noodle_of_combination
             (segments_one_initial_final unused_state include_empty
                (segment0 :: later_segments))
             unused_state epsilon_noodle).
Proof.
  intros Hlater Hsize Hconnect Hstorable Hmembers.
  set (segments := segment0 :: later_segments) in *.
  assert (length segments = S (length later_segments)) as Hlength by done.
  assert (length epsilon_noodle = length later_segments) as Hnoodle.
  { apply Forall2_length in Hmembers. rewrite index_range_length in Hmembers.
    lia. }
  assert (∀ position tran,
            epsilon_noodle !! position = Some tran →
            tran ∈ depth_transitions epsilon_depths (N.of_nat position))
    as Hmember.
  { intros position tran Htran.
    destruct (Forall2_lookup_r _ _ _ _ _ Hmembers Htran) as (depth & Hdepth & Hin).
    apply index_range_lookup in Hdepth as [-> _]. done. }
  assert (∀ position : nat,
            (position < S (length later_segments))%nat →
            ∃ segment, segments !! position = Some segment) as Hsegment.
  { intros position Hposition. apply lookup_lt_is_Some. lia. }
  assert (∀ key segment,
            registry_entry unused_state segments key segment →
            is_Some (segments_one_initial_final unused_state include_empty
                       segments !! key)) as Hregistered.
  { intros key segment Hentry.
    eapply segments_one_initial_final_complete; [done|by eapply Hstorable]. }
  assert (length later_segments ≠ 0%nat) as Hpos
    by by destruct later_segments.
  unfold noodle_of_combination.
  destruct (head epsilon_noodle) as [first|] eqn:Hfirst;
    [|apply head_None in Hfirst; rewrite Hfirst in Hnoodle; cbn in Hnoodle; lia].
  cbn [mbind option_bind].
  destruct (last epsilon_noodle) as [final|] eqn:Hfinal;
    [|apply last_None in Hfinal; rewrite Hfinal in Hnoodle; cbn in Hnoodle; lia].
  cbn [mbind option_bind].
  (* the first segment *)
  destruct (Hsegment 1%nat ltac:(lia)) as [second Hsecond].
  destruct (Hconnect 0%nat first segment0 second) as [Hsrc _];
    [apply Hmember; by rewrite <- head_lookup|done|done|].
  destruct (Hregistered (unused_state, src first)
              (trim (set_finalstates segment0 [src first])))
    as [first_segment ->]; [by econstructor|].
  cbn [mbind option_bind].
  (* the segments in between *)
  destruct (middle_segments_is_Some
              (segments_one_initial_final unused_state include_empty segments)
              epsilon_noodle) as [middle ->].
  { intros position before after Hbefore Hafter.
    assert (S position < length later_segments)%nat as Hposition.
    { apply lookup_lt_Some in Hafter. lia. }
    destruct (Hsegment position ltac:(lia)) as [left_segment Hleft].
    destruct (Hsegment (S position) ltac:(lia)) as [segment Hhere].
    destruct (Hsegment (S (S position)) ltac:(lia)) as [right_segment Hright].
    destruct (Hconnect position before left_segment segment) as [_ Htgt];
      [by apply Hmember|done|done|].
    destruct (Hconnect (S position) after segment right_segment) as [Hsrc' _];
      [by apply Hmember|done|done|].
    apply (Hregistered _
             (trim (set_finalstates
                      (set_initialstates segment [tgt before]) [src after]))).
    apply (registry_entry_middle _ _ (take (S position) segments) segment
             (drop (S (S position)) segments)); [| | |done|done].
    - by rewrite take_drop_middle.
    - intros Hnil. apply (f_equal length) in Hnil.
      rewrite length_take in Hnil. cbn [length] in Hnil. lia.
    - intros Hnil. apply (f_equal length) in Hnil.
      rewrite length_drop in Hnil. cbn [length] in Hnil. lia. }
  cbn [mbind option_bind].
  (* the last segment *)
  assert (epsilon_noodle !! pred (length later_segments) = Some final)
    as Hfinal'.
  { rewrite <- Hnoodle, <- last_lookup. done. }
  destruct (Hsegment (pred (length later_segments)) ltac:(lia))
    as [left_segment Hleft].
  destruct (Hsegment (length later_segments) ltac:(lia)) as [segment Hhere].
  destruct (Hconnect (pred (length later_segments)) final left_segment segment)
    as [_ Htgt]; [by apply Hmember|done| |].
  { by replace (S (pred (length later_segments))) with (length later_segments)
      by lia. }
  destruct (Hregistered (tgt final, unused_state)
              (trim (set_initialstates segment [tgt final])))
    as [last_segment ->]; [|by eexists].
  apply (registry_entry_last _ _ (take (length later_segments) segments));
    [| |done].
  - rewrite <- (take_drop_middle _ _ _ Hhere) at 1. f_equal.
    rewrite drop_ge by lia. done.
  - intros Hnil. apply (f_equal length) in Hnil.
    rewrite length_take in Hnil. cbn [length] in Hnil. lia.
Qed.

(** X6: no combination is dropped when every pinned copy may be stored (in
    particular when [include_empty] is set).  On a segmentation with one depth
    between every two consecutive segments, whose epsilon transitions lead
    from a final state of a segment to an initial state of the next one,
    [noodlify] returns exactly as many noodles as [get_num_of_permutations]
    counts. *)
Theorem noodlify_keeps_every_combination aut epsilon variableLocations alph
    include_empty useBits segment0 next_segment later_segments :
  get_segments_raw aut epsilon = segment0 :: next_segment :: later_segments →
  locations_in_range variableLocations (S (S (length later_segments))) →
  dense_depths (get_epsilon_depths aut epsilon) →
  size (get_epsilon_depths aut epsilon) = S (length later_segments) →
  epsilon_transitions_connect (segment0 :: next_segment :: later_segments)
    (get_epsilon_depths aut epsilon) →
  (∀ key segment,
     registry_entry (get_num_of_states aut)
       (segment0 :: next_segment :: later_segments) key segment →
     storable include_empty segment) →
  ∃ noodles afaOutput,
    noodlify aut epsilon variableLocations alph include_empty useBits
    = Some (noodles, afaOutput)
    ∧ N.of_nat (length noodles)
      = get_num_of_permutations (get_epsilon_depths aut epsilon).
Proof using Type unordered_iteration_perm.
  intros Hsegments Hrange Hdense Hsize Hconnect Hstorable.
  unfold noodlify. rewrite Hsegments.
  destruct (print_afa_is_Some aut segment0 (next_segment :: later_segments)
              (get_epsilon_depths aut epsilon) variableLocations
              (N.of_nat (length (get_symbols alph))) useBits Hrange)
    as [afaOutput Hprint].
  rewrite Hprint. cbn [mbind option_bind].
  rewrite enumerate_noodles_wrapped by (done || lia).
  cbn [mbind option_bind]. eexists _, _. split; [done|].
  match goal with
  | |- context [omap ?f ?l] =>
      destruct (omap_length_le f l) as [_ Heq]
  end.
  rewrite index_range_length in Heq.
  cut (∀ index,
         index ∈ index_range
                   (get_num_of_permutations (get_epsilon_depths aut epsilon)) →
         is_Some (combination (get_epsilon_depths aut epsilon) index
                  ≫= noodle_of_combination
                       (segments_one_initial_final (get_num_of_states aut)
                          include_empty
                          (segment0 :: next_segment :: later_segments))
                       (get_num_of_states aut))).
  { intros Hall. apply Heq in Hall. rewrite Hall. by rewrite N2Nat.id. }
  intros index Hindex%elem_of_index_range.
  assert (0 < number_of_combinations (get_epsilon_depths aut epsilon))%N
    as Hpos.
  { rewrite get_num_of_permutations_wraps in Hindex by done.
    destruct (decide (number_of_combinations (get_epsilon_depths aut epsilon)
                      = 0%N)) as [Hzero|]; [|lia].
    rewrite Hzero in Hindex. by apply N.nlt_0_r in Hindex. }
  destruct (combination_is_Some (get_epsilon_depths aut epsilon) index Hpos)
    as (epsilon_noodle & Hcomb & _); [lia|].
  rewrite Hcomb. cbn [mbind option_bind].
  eapply noodle_of_combination_is_Some; [done|done|done|done|].
  unfold combination in Hcomb. apply mapM_Some_1 in Hcomb.
  eapply Forall2_impl; [exact Hcomb|].
  intros depth tran Htran. cbv beta in Htran.
  by eapply list_elem_of_lookup_2.
Qed.

(** ** Further properties of the map [segments_one_initial_final] *)

Lemma store_entries_size include_empty entries registry :
  (size (store_entries include_empty entries registry)
   ≤ size registry + length entries)%nat.
Proof.
  revert registry.
  induction entries as [|[key segment] entries IH]; intros registry;
    cbn [store_entries foldl length]; [lia|].
  etransitivity; [apply IH|].
  rewrite store_segment_storable. cbn [fst snd].
  case_decide; [|lia].
  rewrite map_size_insert. destruct (registry !! key); cbn; lia.
Qed.

Lemma middle_segment_entries_length seg :
  length (middle_segment_entries seg)
  = (length (initialstates seg) * length (finalstates seg))%nat.
Proof.
  unfold middle_segment_entries.
  induction (initialstates seg) as [|init_state inits IH]; [done|].
  cbn [mbind list_bind length]. rewrite length_app, length_fmap.
  cbn [mbind] in IH. rewrite IH. lia.
Qed.

Lemma later_entries_length unused_state segments :
  length (segments_entries unused_state false segments)
  = later_assignments segments.
Proof.
  induction segments as [|seg rest IH]; [done|].
  cbn [segments_entries later_assignments]. rewrite length_app, IH.
  destruct rest as [|next rest'].
  - unfold last_segment_entries. rewrite length_fmap. cbn. lia.
  - by rewrite middle_segment_entries_length.
Qed.

(** X7: the map of the segments has at most one entry for every final state
    of the first segment, for every initial state of the last segment and for
    every pair of an initial and a final state of a segment in between. *)
Theorem segments_one_initial_final_size unused_state include_empty segments :
  (size (segments_one_initial_final unused_state include_empty segments)
   ≤ number_of_assignments segments)%nat.
Proof.
  unfold segments_one_initial_final. rewrite segments_loop_entries.
  etransitivity; [apply store_entries_size|].
  rewrite map_size_empty.
  destruct segments as [|seg rest]; [done|].
  cbn [segments_entries number_of_assignments].
  rewrite length_app, later_entries_length.
  unfold first_segment_entries. rewrite length_fmap. lia.
Qed.

Lemma store_entries_lookup_last include_empty entries registry key :
  store_entries include_empty entries registry !! key
  = match last (filter (λ entry, entry.1 = key ∧ storable include_empty entry.2)
                       entries) with
    | Some entry => Some entry.2
    | None => registry !! key
    end.
Proof.
  induction entries as [|[k segment] entries IH] using rev_ind; [done|].
  rewrite store_entries_app. cbn [store_entries foldl fst snd].
  rewrite store_segment_storable, filter_app, filter_cons, filter_nil.
  cbn [fst snd].
  destruct (decide (storable include_empty segment)) as [Hstorable|Hstorable].
  - rewrite lookup_insert. destruct (decide (k = key)) as [->|Hkey].
    + rewrite decide_True by done. by rewrite last_snoc.
    + rewrite decide_False by (by intros [? _]).
      by rewrite app_nil_r.
  - rewrite decide_False by (by intros [_ ?]).
    by rewrite app_nil_r.
Qed.

(** X8: an assignment to a key that is already in the map of the segments
    replaces the automaton stored there: the loops attempt one assignment for
    every pinned copy of a segment, in the order of the segments and of their
    initial and final states, and the map holds under a key the automaton of
    the last attempted assignment to this key that passed the guard. *)
Theorem segments_one_initial_final_last_assignment unused_state include_empty
    segments :
  (∀ key segment,
     (key, segment) ∈ segments_entries unused_state true segments
     ↔ registry_entry unused_state segments key segment)
  ∧ ∀ key,
      segments_one_initial_final unused_state include_empty segments !! key
      = snd <$> last (filter (λ entry,
                                entry.1 = key
                                ∧ storable include_empty entry.2)
                             (segments_entries unused_state true segments)).
Proof.
  split.
  - intros key segment. split.
    + apply segments_entries_sound.
    + apply segments_entries_complete.
  - intros key. unfold segments_one_initial_final.
    rewrite segments_loop_entries, store_entries_lookup_last.
    by destruct (last _).
Qed.

(** ** Further properties of the loop over the segments *)

Lemma visit_initial_states_lists old st inits :
  initialStatesNoodles (foldl (visit_initial_state old) st inits)
  = initialStatesNoodles st
    ++ (inits ≫= λ init, (λ oldNoodle, oldNoodle ++ [init]) <$> old)
  ∧ allSegmentsInitialStates (foldl (visit_initial_state old) st inits)
    = allSegmentsInitialStates st ++ inits.
Proof.
  revert st. induction inits as [|init inits IH]; intros st; cbn [foldl].
  - cbn. by rewrite !app_nil_r.
  - destruct (IH (visit_initial_state old st init)) as [-> ->].
    cbn. by rewrite <- !app_assoc.
Qed.

Lemma visit_segment_lists st seg :
  initialStatesNoodles (visit_segment st seg)
  = (initialstates seg
     ≫= λ init, (λ oldNoodle, oldNoodle ++ [init]) <$> initialStatesNoodles st)
  ∧ allSegmentsInitialStates (visit_segment st seg)
    = allSegmentsInitialStates st ++ initialstates seg
  ∧ segmentReachableStates (visit_segment st seg)
    = segmentReachableStates st ++ [get_reachable_states seg].
Proof.
  unfold visit_segment. cbn.
  match goal with
  | |- context [foldl (visit_initial_state ?old) ?st1 ?inits] =>
      destruct (visit_initial_states_lists old st1 inits) as [-> ->];
      destruct (visit_initial_states_fold old st1 inits) as [-> _]
  end.
  done.
Qed.

Lemma visit_segments_lists st later_segments :
  allSegmentsInitialStates (foldl visit_segment st later_segments)
  = allSegmentsInitialStates st ++ (later_segments ≫= initialstates)
  ∧ segmentReachableStates (foldl visit_segment st later_segments)
    = segmentReachableStates st ++ (get_reachable_states <$> later_segments).
Proof.
  revert st. induction later_segments as [|seg rest IH]; intros st; cbn [foldl].
  - cbn. by rewrite !app_nil_r.
  - destruct (IH (visit_segment st seg)) as [-> ->].
    destruct (visit_segment_lists st seg) as (_ & -> & ->).
    cbn. by rewrite <- !app_assoc.
Qed.

Lemma visit_segments_noodles st later_segments noodle :
  noodle ∈ initialStatesNoodles (foldl visit_segment st later_segments)
  ↔ ∃ old inits,
      noodle = old ++ inits
      ∧ old ∈ initialStatesNoodles st
      ∧ Forall2 (λ init seg, init ∈ initialstates seg) inits later_segments.
Proof.
  revert st. induction later_segments as [|seg rest IH]; intros st; cbn [foldl].
  - split.
    + intros Hin. exists noodle, []. rewrite app_nil_r. by repeat split.
    + intros (old & inits & -> & Hold & ->%Forall2_nil_inv_r).
      by rewrite app_nil_r.
  - rewrite IH. destruct (visit_segment_lists st seg) as (-> & _ & _). split.
    + intros (old & inits & -> & Hold & Hinits).
      apply list_elem_of_bind in Hold as (init & Hold & Hinit).
      apply list_elem_of_fmap in Hold as (older & -> & Holder).
      exists older, (init :: inits). rewrite <- app_assoc.
      split; [done|]. split; [done|]. by constructor.
    + intros (old & inits & -> & Hold & Hinits).
      apply Forall2_cons_inv_r in Hinits as (init & inits' & Hinit & Hinits & ->).
      exists (old ++ [init]), inits'. rewrite <- app_assoc.
      split; [done|]. split; [|done].
      apply list_elem_of_bind. exists init. split; [|done].
      apply list_elem_of_fmap. by exists old.
Qed.

Lemma visit_segments_noodles_length st later_segments :
  length (initialStatesNoodles (foldl visit_segment st later_segments))
  = (length (initialStatesNoodles st)
     * foldr (λ seg product, length (initialstates seg) * product) 1
             later_segments)%nat.
Proof.
  revert st. induction later_segments as [|seg rest IH]; intros st;
    cbn [foldl foldr]; [lia|].
  rewrite IH. destruct (visit_segment_lists st seg) as (-> & _ & _).
  assert (∀ (inits : list State) (old : list (list State)),
            length (inits ≫= λ init, (λ oldNoodle, oldNoodle ++ [init]) <$> old)
            = (length inits * length old)%nat) as ->.
  { intros inits old. induction inits as [|init inits IHinits]; [done|].
    cbn [mbind list_bind length]. rewrite length_app, length_fmap.
    cbn [mbind] in IHinits. rewrite IHinits. lia. }
  lia.
Qed.

(** X9: the initial noodles of the alternating automaton are the Cartesian
    product of the sets of initial states of the segments after the first:
    a vector of states is among them exactly when it takes one initial state
    of every such segment, in the order of the segments, and their number is
    the product of the numbers of initial states of these segments. *)
Theorem initial_noodles_cartesian_product segment0 later_segments :
  (∀ noodle,
     noodle ∈ initialStatesNoodles (segment_loop segment0 later_segments)
     ↔ Forall2 (λ init seg, init ∈ initialstates seg) noodle later_segments)
  ∧ length (initialStatesNoodles (segment_loop segment0 later_segments))
    = foldr (λ seg product, length (initialstates seg) * product)%nat 1%nat
            later_segments.
Proof.
  unfold segment_loop. split.
  - intros noodle. rewrite visit_segments_noodles. cbn. split.
    + intros (old & inits & -> & Hold & Hinits).
      apply list_elem_of_singleton in Hold as ->. done.
    + intros Hinits. exists [], noodle. split; [done|]. split; [|done].
      by apply list_elem_of_singleton.
  - rewrite visit_segments_noodles_length. cbn. lia.
Qed.

Lemma previous_reachable_is_Some prev later_segments i :
  is_Some (previous_reachable prev later_segments i)
  ↔ i ∈ later_segments ≫= initialstates.
Proof.
  revert prev. induction later_segments as [|seg rest IH]; intros prev;
    cbn [previous_reachable].
  - split; [by intros [? ?]|]. by intros ?%elem_of_nil.
  - cbn [mbind list_bind]. rewrite elem_of_app. rewrite <- (IH seg).
    destruct (previous_reachable seg rest i) as [reachable|].
    + split; [|by eexists]. intros _. right. by eexists.
    + case_decide as Hin.
      * split; [by left|by eexists].
      * split; [by intros [? ?]|]. by intros [?|[? ?]].
Qed.

(** X10: after the loop over the segments, [segmentReachableStates] holds
    the reachable states of every segment at the index of the segment (so the
    transition lines of a variable location are those of the states reachable
    in its segment), [allSegmentsInitialStates] lists the initial states of
    the segments after the first in order, and the map
    [initStateToPreviousNonFinalStates] has an entry exactly for these
    states. *)
Theorem segment_loop_lists segment0 later_segments :
  segmentReachableStates (segment_loop segment0 later_segments)
  = get_reachable_states <$> segment0 :: later_segments
  ∧ (∀ varLoc : nat,
       segmentReachableStates (segment_loop segment0 later_segments) !! varLoc
       = get_reachable_states <$> (segment0 :: later_segments) !! varLoc)
  ∧ allSegmentsInitialStates (segment_loop segment0 later_segments)
    = later_segments ≫= initialstates
  ∧ (∀ i,
       is_Some (initStateToPreviousNonFinalStates
                  (segment_loop segment0 later_segments) !! i)
       ↔ i ∈ allSegmentsInitialStates (segment_loop segment0 later_segments)).
Proof.
  assert (segmentReachableStates (segment_loop segment0 later_segments)
          = get_reachable_states <$> segment0 :: later_segments
          ∧ allSegmentsInitialStates (segment_loop segment0 later_segments)
            = later_segments ≫= initialstates) as [Hreachable Hinitial].
  { unfold segment_loop.
    match goal with
    | |- context [foldl visit_segment ?st0 _] =>
        destruct (visit_segments_lists st0 later_segments) as [-> ->]
    end.
    done. }
  split; [done|]. split; [|split; [done|]].
  - intros varLoc. by rewrite Hreachable, list_lookup_fmap.
  - intros i. rewrite Hinitial.
    destruct (segment_loop_spec segment0 later_segments) as [_ ->].
    apply previous_reachable_is_Some.
Qed.

(** ** Further properties of the formula [%Final] *)



(** ** Further properties of the encoding of the symbols *)

Lemma testbit_above_width (r width i : N) :
  (r < 2 ^ width)%N → (width ≤ i)%N → N.testbit r i = false.
Proof.
  intros Hr Hi. destruct (decide (r = 0%N)) as [->|Hpos]; [apply N.bits_0|].
  apply N.bits_above_log2.
  assert (N.log2 r < width)%N by (apply N.log2_lt_pow2; lia). lia.
Qed.

Lemma string_length_app (s1 s2 : string) :
  String.length (s1 +:+ s2) = (String.length s1 + String.length s2)%nat.
Proof.
  induction s1 as [|c s1 IH]; [done|].
  change (S (String.length (s1 +:+ s2))
          = S (String.length s1 + String.length s2)).
  by rewrite IH.
Qed.

Lemma string_app_inv_tail (s1 s2 t : string) :
  s1 +:+ t = s2 +:+ t → s1 = s2.
Proof.
  revert s2. induction s1 as [|c1 s1 IH]; intros [|c2 s2] Heq.
  - done.
  - apply (f_equal String.length) in Heq.
    rewrite !string_length_app in Heq. cbn in Heq. lia.
  - apply (f_equal String.length) in Heq.
    rewrite !string_length_app in Heq. cbn in Heq. lia.
  - change (String c1 (s1 +:+ t) = String c2 (s2 +:+ t)) in Heq.
    injection Heq as -> Heq. f_equal. by apply IH.
Qed.

Lemma print_separated_ext_in {A : Type} (sep : string) (f g : A → string)
    (l : list A) (isFirst : bool) :
  (∀ x, x ∈ l → f x = g x) →
  print_separated sep f l isFirst = print_separated sep g l isFirst.
Proof.
  revert isFirst. induction l as [|x l IH]; intros isFirst Hext; [done|].
  cbn [print_separated]. rewrite Hext by by left.
  rewrite IH; [done|]. intros y Hy. apply Hext. by right.
Qed.

Lemma separated_atoms_inj (body : N → string) (r1 r2 : N) (l : list N)
    (isFirst : bool) :
  print_separated " & "
    (λ i, (if N.testbit r1 i then "" else "!") +:+ "a" +:+ body i) l isFirst
  = print_separated " & "
      (λ i, (if N.testbit r2 i then "" else "!") +:+ "a" +:+ body i) l isFirst →
  ∀ i, i ∈ l → N.testbit r1 i = N.testbit r2 i.
Proof.
  revert isFirst. induction l as [|x l IH]; intros isFirst Heq i Hi.
  - by apply elem_of_nil in Hi.
  - cbn [print_separated] in Heq. apply (inj (String.app _)) in Heq.
    rewrite !string_app_assoc in Heq.
    assert (N.testbit r1 x = N.testbit r2 x
            ∧ print_separated " & "
                (λ i, (if N.testbit r1 i then "" else "!") +:+ "a" +:+ body i)
                l false
              = print_separated " & "
                  (λ i, (if N.testbit r2 i then "" else "!") +:+ "a" +:+ body i)
                  l false) as [Hx Hrest].
    { destruct (N.testbit r1 x), (N.testbit r2 x).
      - split; [done|].
        do 3 apply (inj (String.app _)) in Heq. done.
      - discriminate Heq.
      - discriminate Heq.
      - split; [done|].
        do 3 apply (inj (String.app _)) in Heq. done. }
    apply elem_of_cons in Hi as [->|Hi]; [done|]. by eapply IH.
Qed.

(** X12: the encodings of the remapped symbols can be told apart.  The bit
    width is large enough for the numbers below the size of the alphabet; on
    one track, two numbers below 2^neededBits with the same bit atoms are
    equal, and so are two numbers with the same track atom; the bit atoms show
    only the low neededBits bits of a number, so a number and its remainder
    modulo 2^neededBits are written alike. *)
Theorem print_remapped_injective :
  (∀ alphabet_size,
     (alphabet_size ≤ 2 ^ 32)%N →
     (alphabet_size ≤ 2 ^ neededBits_of alphabet_size)%N)
  ∧ (∀ neededBits trackNum r1 r2,
       (neededBits ≤ 32)%N →
       (trackNum * neededBits + neededBits ≤ size_t_modulus)%N →
       (r1 < 2 ^ neededBits)%N → (r2 < 2 ^ neededBits)%N →
       print_remapped true neededBits r1 trackNum
       = print_remapped true neededBits r2 trackNum →
       r1 = r2)
  ∧ (∀ neededBits trackNum r1 r2,
       print_remapped false neededBits r1 trackNum
       = print_remapped false neededBits r2 trackNum →
       r1 = r2)
  ∧ (∀ neededBits trackNum r,
       (neededBits ≤ 32)%N →
       (trackNum * neededBits + neededBits ≤ size_t_modulus)%N →
       print_remapped true neededBits (r mod 2 ^ neededBits) trackNum
       = print_remapped true neededBits r trackNum).
Proof.
  split; [|split; [|split]].
  - intros alphabet_size Hsize. rewrite neededBits_of_log2_up by done.
    destruct (N.leb_spec alphabet_size 1) as [Hsmall|Hlarge].
    + change (2 ^ 1)%N with 2%N. lia.
    + by apply N.log2_up_spec.
  - intros neededBits trackNum r1 r2 Hbits Hfit Hr1 Hr2 Heq.
    rewrite !print_remapped_bits in Heq by done. unfold bit_atoms in Heq.
    pose proof (separated_atoms_inj
                  (λ i, pretty (trackNum * neededBits + i)%N) r1 r2 _ _ Heq)
      as Hlow.
    apply N.bits_inj. intros i.
    destruct (decide (i < neededBits)%N) as [Hi|Hi].
    + by apply Hlow, elem_of_index_range.
    + rewrite !(testbit_above_width _ neededBits) by (done || lia). done.
  - intros neededBits trackNum r1 r2 Heq. unfold print_remapped in Heq.
    apply string_app_inv_tail in Heq. by apply (inj pretty) in Heq.
  - intros neededBits trackNum r Hbits Hfit.
    rewrite !print_remapped_bits by done. unfold bit_atoms.
    apply print_separated_ext_in. intros i Hi%elem_of_index_range.
    by rewrite N.mod_pow2_bits_low.
Qed.

(** ** Further properties of the equation driver *)

Lemma reduce_handling_agree params product :
  (if negb (String.eqb (reduce_value_of params) "")
   then apply_reduce (reduce_value_of params) product
   else product)
  = match params !! "reduce" with
    | Some reduce_value => apply_reduce reduce_value product
    | None => product
    end.
Proof.
  unfold reduce_value_of. destruct (params !! "reduce") as [v|]; [|done].
  cbn [default]. unfold id. by destruct (String.eqb_spec v "") as [->|_].
Qed.

Lemma noodlify_for_equation_ptr_ref heap left_automata right_automaton
    variableLocations include_empty params :
  (if reduce_requested (reduce_value_of params)
   then unify_left_automata left_automata heap
   else heap) = unify_left_automata left_automata heap →
  noodlify_for_equation_ptr heap left_automata right_automaton
    variableLocations include_empty params
  = noodlify_for_equation_ref heap left_automata right_automaton
      variableLocations include_empty params.
Proof.
  intros Hheap. unfold noodlify_for_equation_ptr, noodlify_for_equation_ref.
  cbv zeta. rewrite Hheap. f_equal.
  destruct (bool_decide (left_automata = []) || is_lang_empty right_automaton);
    [done|].
  destruct (mapM _ left_automata) as [[|first_automaton next_automata]|];
    [done| |done].
  cbn [mbind option_bind].
  destruct (build_product _ _ _) as [[alphabet epsilon] product].
  destruct (is_lang_empty product); [done|].
  by rewrite reduce_handling_agree.
Qed.

Lemma unify_left_automata_unified left_automata heap :
  (∀ left_aut aut,
     left_aut ∈ left_automata → heap !! left_aut = Some aut →
     unify_final (unify_initial aut) = aut) →
  unify_left_automata left_automata heap = heap.
Proof.
  unfold unify_left_automata.
  induction left_automata as [|left_aut rest IH]; intros Hunified;
    cbn [foldl]; [done|].
  assert (alter (λ aut, unify_final (unify_initial aut)) left_aut heap = heap)
    as ->.
  { apply map_eq. intros l. rewrite lookup_alter.
    destruct (decide (left_aut = l)) as [->|]; [|done].
    destruct (heap !! l) as [aut|] eqn:Haut; [|done].
    cbn. f_equal. apply (Hunified l); [by left|done]. }
  apply IH. intros l aut Hl. apply Hunified. by right.
Qed.

(** X13: the two overloads of [noodlify_for_equation] differ only in when
    they unify the automata of the left side.  They return the same noodles,
    write the same text and leave the same automata behind when [params] maps
    [reduce] to forward, backward or bidirectional, and also when unifying
    changes none of the automata of the left side. *)
Theorem noodlify_for_equation_overloads_agree heap left_automata right_automaton
    variableLocations include_empty params :
  (params !! "reduce" ∈ [Some "forward"; Some "backward"; Some "bidirectional"] →
   noodlify_for_equation_ptr heap left_automata right_automaton
     variableLocations include_empty params
   = noodlify_for_equation_ref heap left_automata right_automaton
       variableLocations include_empty params)
  ∧ ((∀ left_aut aut,
        left_aut ∈ left_automata → heap !! left_aut = Some aut →
        unify_final (unify_initial aut) = aut) →
     noodlify_for_equation_ptr heap left_automata right_automaton
       variableLocations include_empty params
     = noodlify_for_equation_ref heap left_automata right_automaton
         variableLocations include_empty params).
Proof.
  split.
  - intros Hreduce. apply noodlify_for_equation_ptr_ref.
    rewrite !elem_of_cons, elem_of_nil in Hreduce. unfold reduce_value_of.
    by destruct Hreduce as [->|[->|[->|[]]]].
  - intros Hunified. apply noodlify_for_equation_ptr_ref.
    rewrite unify_left_automata_unified by done.
    by destruct (reduce_requested _).
Qed.

(** X14: with an empty left side both overloads return the empty sequence of
    noodles, write nothing and leave every automaton as it was; with a right
    side of empty language both return the empty sequence and write nothing,
    whatever the other arguments are. *)
Theorem noodlify_for_equation_empty_side heap right_automaton variableLocations
    include_empty params :
  noodlify_for_equation_ref heap [] right_automaton variableLocations
    include_empty params = (heap, Some ([], ""))
  ∧ noodlify_for_equation_ptr heap [] right_automaton variableLocations
      include_empty params = (heap, Some ([], ""))
  ∧ ∀ left_automata,
      is_lang_empty right_automaton = true →
      (noodlify_for_equation_ref heap left_automata right_automaton
         variableLocations include_empty params).2 = Some ([], "")
      ∧ (noodlify_for_equation_ptr heap left_automata right_automaton
           variableLocations include_empty params).2 = Some ([], "").
Proof.
  split; [done|]. split.
  - unfold noodlify_for_equation_ptr. cbn.
    by destruct (reduce_requested _).
  - intros left_automata Hempty.
    unfold noodlify_for_equation_ref, noodlify_for_equation_ptr.
    cbn [snd]. rewrite Hempty, !orb_true_r. done.
Qed.


(** ** Every combination is visited *)

Lemma choose_epsilon_noodle_complete epsilon_depths (count first : nat)
    epsilon_noodle :
  dense_depths epsilon_depths →
  (first + count ≤ size epsilon_depths)%nat →
  Forall2 (λ depth tran, tran ∈ depth_transitions epsilon_depths depth)
          (N.of_nat <$> seq first count) epsilon_noodle →
  ∃ temp,
    (temp < foldr (λ depth product,
                     N.of_nat (length (depth_transitions epsilon_depths depth))
                     * product) 1 (N.of_nat <$> seq first count))%N
    ∧ choose_epsilon_noodle epsilon_depths (N.of_nat <$> seq first count) temp
      = Some epsilon_noodle.
Proof.
  intros Hdense. revert first epsilon_noodle.
  induction count as [|count IH]; intros first epsilon_noodle Hle Hmembers.
  - apply Forall2_nil_inv_l in Hmembers as ->. exists 0%N. by split.
  - cbn [seq fmap list_fmap] in *.
    apply Forall2_cons_inv_l in Hmembers
      as (tran & rest & Htran & Hrest & ->).
    destruct (IH (S first) rest) as (temp & Hbound & Hchoose); [lia|done|].
    apply list_elem_of_lookup_1 in Htran as [position Hposition].
    pose proof (lookup_lt_Some _ _ _ Hposition) as Hlt.
    set (transitions := depth_transitions epsilon_depths (N.of_nat first)) in *.
    set (k := N.of_nat (length transitions)).
    assert (N.of_nat position < k)%N as Hdigit by (unfold k; lia).
    exists (N.of_nat position + k * temp)%N. split.
    + cbn [foldr]. fold transitions. fold k.
      match type of Hbound with
      | (_ < ?P)%N => generalize dependent P
      end.
      intros product Hbound.
      assert (k * (temp + 1) ≤ k * product)%N by (apply N.mul_le_mono_l; lia).
      lia.
    + cbn [choose_epsilon_noodle].
      rewrite (dense_depths_lookup _ (N.of_nat first)) by (done || lia).
      cbn [mbind option_bind]. fold transitions. fold k.
      destruct (N.eqb_spec k 0) as [Hzero|Hpos]; [lia|].
      assert ((N.of_nat position + k * temp) mod k = N.of_nat position)%N as ->.
      { replace (N.of_nat position + k * temp)%N
          with (N.of_nat position + temp * k)%N by lia.
        rewrite N.Div0.mod_add. by apply N.mod_small. }
      rewrite Nat2N.id, Hposition. cbn [mbind option_bind].
      assert ((N.of_nat position + k * temp) / k = temp)%N as ->.
      { replace (N.of_nat position + k * temp)%N
          with (N.of_nat position + temp * k)%N by lia.
        rewrite N.div_add by done. rewrite N.div_small by done. lia. }
      by rewrite Hchoose.
Qed.

Lemma middle_segments_of_keys registry epsilon_noodle middle :
  Forall2 (λ key segment, registry !! key = Some segment)
          (middle_keys epsilon_noodle) middle →
  middle_segments registry epsilon_noodle = Some middle.
Proof.
  revert middle.
  induction epsilon_noodle as [|iter rest IH]; intros middle.
  - by intros ->%Forall2_nil_inv_l.
  - destruct rest as [|next_iter rest'].
    + by intros ->%Forall2_nil_inv_l.
    + rewrite middle_segments_cons, middle_keys_cons.
      intros (segment & later & Hkey & Hlater & ->)%Forall2_cons_inv_l.
      rewrite Hkey. cbn [mbind option_bind]. by rewrite (IH later).
Qed.

Lemma noodle_of_keys registry unused_state epsilon_noodle noodle :
  epsilon_noodle ≠ [] →
  Forall2 (λ key segment, registry !! key = Some segment)
          (noodle_keys unused_state epsilon_noodle) noodle →
  noodle_of_combination registry unused_state epsilon_noodle = Some noodle.
Proof.
  destruct epsilon_noodle as [|first rest]; [done|]. intros _.
  unfold noodle_keys, noodle_of_combination, back.
  destruct (last_is_Some (first :: rest)) as [_ [final Hfinal]]; [done|].
  rewrite Hfinal. cbn [head mbind option_bind default].
  intros (first_segment & later & Hfirst & Hlater & ->)%Forall2_cons_inv_l.
  apply Forall2_app_inv_l in Hlater
    as (middle & final_part & Hmiddle & Hlast & ->).
  apply Forall2_cons_inv_l in Hlast
    as (last_segment & empty & Hlast & ->%Forall2_nil_inv_l & ->).
  rewrite Hfirst. cbn [mbind option_bind].
  rewrite (middle_segments_of_keys _ _ _ Hmiddle). cbn [mbind option_bind].
  unfold id in Hlast. by rewrite Hlast.
Qed.

(** X16: when the number of combinations is below 2^64, every combination of
    one epsilon transition per depth is visited: on a segmentation of at
    least two segments whose depths are 0, ..., D - 1 with D at least 1, the
    noodle of every such combination for which every lookup finds a segment
    is among the noodles that [noodlify] returns. *)
Theorem noodlify_visits_every_combination aut epsilon variableLocations alph
    include_empty useBits segment0 next_segment later_segments
    epsilon_noodle noodle :
  get_segments_raw aut epsilon = segment0 :: next_segment :: later_segments →
  locations_in_range variableLocations (S (S (length later_segments))) →
  dense_depths (get_epsilon_depths aut epsilon) →
  size (get_epsilon_depths aut epsilon) ≠ 0%nat →
  (number_of_combinations (get_epsilon_depths aut epsilon) < 2 ^ 64)%N →
  Forall2 (λ depth tran,
             tran ∈ depth_transitions (get_epsilon_depths aut epsilon) depth)
          (index_range (N.of_nat (size (get_epsilon_depths aut epsilon))))
          epsilon_noodle →
  Forall2 (λ key segment,
             segments_one_initial_final (get_num_of_states aut) include_empty
               (segment0 :: next_segment :: later_segments) !! key
             = Some segment)
          (noodle_keys (get_num_of_states aut) epsilon_noodle) noodle →
  ∃ noodles afaOutput,
    noodlify aut epsilon variableLocations alph include_empty useBits
    = Some (noodles, afaOutput)
    ∧ noodle ∈ noodles.
Proof using Type unordered_iteration_perm.
  intros Hsegments Hrange Hdense Hsize Hfit Hmembers Hkeys.
  unfold noodlify. rewrite Hsegments.
  destruct (print_afa_is_Some aut segment0 (next_segment :: later_segments)
              (get_epsilon_depths aut epsilon) variableLocations
              (N.of_nat (length (get_symbols alph))) useBits Hrange)
    as [afaOutput Hprint].
  rewrite Hprint. cbn [mbind option_bind].
  rewrite enumerate_noodles_wrapped by done.
  cbn [mbind option_bind]. eexists _, _. split; [done|].
  rewrite get_num_of_permutations_wraps by done.
  unfold wrap_size_t. rewrite N.mod_small by done.
  assert (epsilon_noodle ≠ []) as Hne.
  { intros ->. apply Forall2_length in Hmembers.
    rewrite index_range_length in Hmembers. cbn in Hmembers. lia. }
  unfold index_range in Hmembers. rewrite Nat2N.id in Hmembers.
  destruct (choose_epsilon_noodle_complete _
              (size (get_epsilon_depths aut epsilon)) 0 _ Hdense
              ltac:(lia) Hmembers) as (index & Hindex & Hchoose).
  apply list_elem_of_omap. exists index. split.
  - apply elem_of_index_range. unfold number_of_combinations, index_range.
    by rewrite Nat2N.id.
  - rewrite <- choose_epsilon_noodle_combination by done.
    unfold index_range. rewrite Nat2N.id, Hchoose. cbn [mbind option_bind].
    by apply noodle_of_keys.
Qed.

Lemma digits_determine_remainder epsilon_depths (i j : N) (depths : nat) :
  (∀ depth : nat,
     (depth < depths)%nat →
     digit epsilon_depths i (N.of_nat depth)
     = digit epsilon_depths j (N.of_nat depth)) →
  (i mod radix_below epsilon_depths (N.of_nat depths)
   = j mod radix_below epsilon_depths (N.of_nat depths))%N.
Proof.
  induction depths as [|depths IH]; intros Hdigits.
  - by rewrite !N.mod_1_r.
  - rewrite radix_below_succ, !N.Div0.mod_mul_r.
    rewrite IH by (intros depth Hdepth; apply Hdigits; lia).
    pose proof (Hdigits depths ltac:(lia)) as Hdigit. unfold digit in Hdigit.
    by rewrite Hdigit.
Qed.

Lemma chosen_transitions_determine_index epsilon_depths (i j : N) :
  dense_depths epsilon_depths →
  (∀ depth, NoDup (depth_transitions epsilon_depths depth)) →
  (i < number_of_combinations epsilon_depths)%N →
  (j < number_of_combinations epsilon_depths)%N →
  choose_epsilon_noodle epsilon_depths
    (index_range (N.of_nat (size epsilon_depths))) i
  = choose_epsilon_noodle epsilon_depths
      (index_range (N.of_nat (size epsilon_depths))) j →
  i = j.
Proof.
  intros Hdense Hdistinct Hi Hj Hsame.
  destruct (decide (size epsilon_depths = 0%nat)) as [Hzero|Hsize].
  { assert (number_of_combinations epsilon_depths = 1%N) as Hone
      by (unfold number_of_combinations; by rewrite Hzero).
    lia. }
  rewrite !choose_epsilon_noodle_combination in Hsame by done.
  destruct (combination_is_Some epsilon_depths i ltac:(lia) Hsize)
    as (epsilon_noodle & Hcombination & _).
  rewrite Hcombination in Hsame. symmetry in Hsame.
  unfold combination in Hcombination, Hsame.
  apply mapM_Some_1 in Hcombination, Hsame.
  assert (i mod radix_below epsilon_depths (N.of_nat (size epsilon_depths))
          = j mod radix_below epsilon_depths (N.of_nat (size epsilon_depths)))%N
    as Hmod.
  { apply digits_determine_remainder. intros depth Hdepth.
    assert (index_range (N.of_nat (size epsilon_depths)) !! depth
            = Some (N.of_nat depth)) as Hlookup
      by (apply index_range_lookup; split; [done|lia]).
    destruct (Forall2_lookup_l _ _ _ _ _ Hcombination Hlookup)
      as (tran & Htran & Hfirst).
    destruct (Forall2_lookup_l _ _ _ _ _ Hsame Hlookup)
      as (tran' & Htran' & Hsecond).
    assert (tran' = tran) as -> by congruence.
    apply N2Nat.inj.
    exact (NoDup_lookup _ _ _ _ (Hdistinct (N.of_nat depth)) Hfirst Hsecond). }
  assert (radix_below epsilon_depths (N.of_nat (size epsilon_depths))
          = number_of_combinations epsilon_depths) as Htotal by done.
  rewrite Htotal in Hmod. by rewrite !N.mod_small in Hmod.
Qed.

(** X17: no combination is visited twice.  When the epsilon transitions of
    every depth are pairwise distinct, the inner loop chooses different
    epsilon transitions for two different indices below the number of
    combinations. *)
Theorem enumeration_without_repetition epsilon_depths (i j : N) :
  dense_depths epsilon_depths →
  (∀ depth, NoDup (depth_transitions epsilon_depths depth)) →
  (i < number_of_combinations epsilon_depths)%N →
  (j < number_of_combinations epsilon_depths)%N →
  i ≠ j →
  choose_epsilon_noodle epsilon_depths
    (index_range (N.of_nat (size epsilon_depths))) i
  ≠ choose_epsilon_noodle epsilon_depths
      (index_range (N.of_nat (size epsilon_depths))) j.
Proof.
  intros Hdense Hdistinct Hi Hj Hne Hsame. apply Hne.
  by apply (chosen_transitions_determine_index epsilon_depths).
Qed.

End Noodlify.

(** * Examples *)

(** The example visiting order is an enumeration of the entries. *)
Lemma ex_unordered_iteration_perm (V : Type) (m : gmap N V) :
  ex_unordered_iteration V m ≡ₚ map_to_list m.
Proof. reflexivity. Qed.

(** C10 on the automaton 0 -97-> 1, which is its only segment. *)
Lemma noodlify_one_segment_writes_nothing_witness :
  ex_get_segments_raw ex_plain 100 = [ex_plain]
  ∧ snd <$> noodlify ex_trim ex_get_num_of_states ex_get_reachable_states
              ex_get_transitions_from (list N) id ex_get_segments_raw
              ex_get_epsilon_depths ex_unordered_iteration
              ex_plain 100 [[0%nat]] [97%N] false true
    = Some "".
Proof.
  split; [reflexivity|].
  exact (noodlify_one_segment_writes_nothing ex_trim ex_get_num_of_states
           ex_get_reachable_states ex_get_transitions_from (list N) id
           ex_get_segments_raw ex_get_epsilon_depths ex_unordered_iteration
           ex_plain 100 [[0%nat]] [97%N] false true ex_plain eq_refl).
Defined.

(** C7 on the same automaton: the result is the one noodle of the trimmed
    automaton. *)
Lemma noodlify_one_segment_result_witness :
  ex_get_segments_raw ex_plain 100 = [ex_plain]
  ∧ (0 < ex_get_num_of_states (ex_trim ex_plain))%N
  ∧ fst <$> noodlify ex_trim ex_get_num_of_states ex_get_reachable_states
              ex_get_transitions_from (list N) id ex_get_segments_raw
              ex_get_epsilon_depths ex_unordered_iteration
              ex_plain 100 [[0%nat]] [97%N] false true
    = Some [[ex_trim ex_plain]].
Proof.
  split; [reflexivity|]. split; [reflexivity|].
  exact (proj2 (noodlify_one_segment_result ex_trim ex_get_num_of_states
                  ex_get_reachable_states ex_get_transitions_from (list N) id
                  ex_get_segments_raw ex_get_epsilon_depths
                  ex_unordered_iteration
                  ex_plain 100 [[0%nat]] [97%N] false true ex_plain eq_refl)
               eq_refl eq_refl).
Defined.

(** C8 on the two segments of [ex_aut]: the first segment is stored under
    the key (4, 1), 4 being the number of states of [ex_aut]; it is the
    trimmed copy of the first segment with the initial states {0} of the
    segment and the final states {1}. *)
Lemma segments_one_initial_final_entries_witness :
  segments_one_initial_final ex_trim ex_get_num_of_states
    (ex_get_num_of_states ex_aut) false [ex_segment0; ex_segment1]
    !! (4%N, 1%N) = Some ex_segment0
  ∧ ex_segment0 = ex_trim (pinned_copy ex_segment0 [0%N] [1%N])
  ∧ pinned_entry ex_trim (ex_get_num_of_states ex_aut)
      [ex_segment0; ex_segment1] (4%N, 1%N) ex_segment0
  ∧ storable ex_get_num_of_states false ex_segment0.
Proof.
  split; [reflexivity|]. split; [reflexivity|].
  exact (proj1 (segments_one_initial_final_entries ex_trim ex_get_num_of_states
                  ex_get_reachable_states ex_get_transitions_from (list N) id
                  ex_get_segments_raw ex_get_epsilon_depths
                  ex_unordered_iteration
                  ex_aut false [ex_segment0; ex_segment1])
               (4%N, 1%N) ex_segment0 eq_refl).
Defined.

(** C1 on a left side of the one automaton for the word 97 and a right side
    for the word 98: the product is empty, nothing is returned or written. *)
Lemma noodlify_for_equation_empty_product_witness :
  mapM (λ left_aut, unify_left_automata id id [0%nat] {[ 0%nat := ex_plain ]}
                    !! left_aut) [0%nat]
  = Some [ex_plain]
  ∧ ex_is_lang_empty
      (build_product ex_trim (list N) ex_concatenate ex_empty_intersection
         ex_from_nfas ex_add_symbols_from ex_get_next_value
         ex_plain [] ex_other).2 = true
  ∧ (noodlify_for_equation_ref ex_trim ex_get_num_of_states
       ex_get_reachable_states ex_get_transitions_from (list N) id
       ex_get_segments_raw ex_get_epsilon_depths ex_unordered_iteration
       id id ex_is_lang_empty ex_concatenate ex_empty_intersection id id
       ex_from_nfas ex_add_symbols_from ex_get_next_value
       {[ 0%nat := ex_plain ]} [0%nat] ex_other [[0%nat]] false ∅).2
    = Some ([], "").
Proof.
  split; [reflexivity|]. split; [reflexivity|].
  exact (proj1 (noodlify_for_equation_empty_product ex_trim ex_get_num_of_states
                  ex_get_reachable_states ex_get_transitions_from (list N) id
                  ex_get_segments_raw ex_get_epsilon_depths
                  ex_unordered_iteration
                  id id ex_is_lang_empty ex_concatenate ex_empty_intersection
                  id id ex_from_nfas ex_add_symbols_from ex_get_next_value
                  {[ 0%nat := ex_plain ]} [0%nat] ex_other [[0%nat]] false ∅)
               ex_plain [] eq_refl eq_refl).
Defined.



(** C4 on an alphabet of three symbols: two bits. *)
Lemma neededBits_and_bit_atoms_witness :
  (3 ≤ 2 ^ 32)%N ∧ neededBits_of 3 = 2%N.
Proof.
  split; [by compute|].
  exact (proj1 (proj1 neededBits_and_bit_atoms 3%N ltac:(by compute))).
Defined.

(** C4 as stated fails: for an alphabet without symbols the width is 1 and
    not 0, and the second symbol seen (remapped to 1) is written on track 1
    with two bits as [a2 & !a3], the least significant bit first, where the
    claim has [!a2 & a3]. *)
Lemma bit_atoms_claimed_counterexample :
  neededBits_of 0 = 1%N
  ∧ claimed_neededBits 0 = 0%N
  ∧ (remapSymbol true 2 {| symbolRemapping := {[ 97%N := 0%N ]}; newSymbol := 1 |}
       98 1).2 = "a2 & !a3"
  ∧ claimed_bit_atoms 2 1 1 = "!a2 & a3".
Proof. repeat split; reflexivity. Qed.

(** C9 on [ex_aut] with one variable per segment: 97 is met first and gets
    0, 98 gets 1. *)
Lemma symbol_remapping_stable_witness :
  locations_in_range [[0%nat]; [1%nat]] 2
  ∧ ∃ st, newSymbol st = 2%N
          ∧ symbolRemapping st !! 97%N = Some 0%N
          ∧ symbolRemapping st !! 98%N = Some 1%N
          ∧ render_symbol true (neededBits_of 3) (symbolRemapping st) 97 1
            = print_remapped true (neededBits_of 3) 0 1.
Proof.
  assert (locations_in_range [[0%nat]; [1%nat]] 2) as Hrange.
  { intros locations varLoc Hlocations HvarLoc.
    repeat (apply elem_of_cons in Hlocations as [->|Hlocations]);
      try (by apply elem_of_nil in Hlocations);
      (apply elem_of_cons in HvarLoc as [->|HvarLoc];
       [lia|by apply elem_of_nil in HvarLoc]). }
  split; [exact Hrange|].
  destruct (proj1 (proj2 (symbol_remapping_stable ex_get_reachable_states
                            ex_get_transitions_from ex_unordered_iteration
                            ex_aut ex_segment0 [ex_segment1] ex_epsilon_depths
                            [[0%nat]; [1%nat]] 3 true)) Hrange)
    as (st & [Hnew Htable] & _ & Hform).
  assert (symbolRemapping st !! 97%N = Some 0%N) as Hfirst
    by (apply Htable; reflexivity).
  exists st. split; [exact Hnew|]. split; [exact Hfirst|].
  split; [apply Htable; reflexivity|].
  exact (Hform 97%N 0%N 1%N Hfirst).
Defined.

(** C9 as stated fails on [ex_aut] with one variable per segment: the symbol
    97 occurs in the lines of both variables and has the number 0 at both
    occurrences, but it is written as [0@t0] on track 0 and as [0@t1] on
    track 1 (with bits, as [!a0] and as [!a1]). *)
Lemma encoded_form_across_tracks_counterexample :
  symbols_of_variable ex_get_transitions_from [ex_segment0; ex_segment1]
    (segmentReachableStates
       (segment_loop ex_get_reachable_states ex_segment0 [ex_segment1]))
    [[0%nat]; [1%nat]] 0 = [97%N]
  ∧ symbols_of_variable ex_get_transitions_from [ex_segment0; ex_segment1]
      (segmentReachableStates
         (segment_loop ex_get_reachable_states ex_segment0 [ex_segment1]))
      [[0%nat]; [1%nat]] 1 = [98%N; 97%N]
  ∧ print_afa ex_get_reachable_states ex_get_transitions_from
      ex_unordered_iteration ex_aut ex_segment0 [ex_segment1]
      ex_epsilon_depths [[0%nat]; [1%nat]] 2 false
    = Some ("@AFA-explicit" +:+ endl +:+ "%Alphabet-numbers" +:+ endl
            +:+ "%Tracks-auto" +:+ endl
            +:+ "%Initial (q0) & ((q2 & q2'))" +:+ endl
            +:+ "%Final (!q2) & (!q2' | (!q0))" +:+ endl
            +:+ "q0 (0@t0 & (q1))" +:+ endl
            +:+ "q2 (1@t1 & (q3)) | (0@t1 & (q3))" +:+ endl
            +:+ "q2' q2'" +:+ endl
            +:+ "#AFA was fully printed" +:+ endl)
  ∧ encoded_forms ex_get_transitions_from false (neededBits_of 2)
      {[ 97%N := 0%N; 98%N := 1%N ]} [ex_segment0; ex_segment1]
      (segmentReachableStates
         (segment_loop ex_get_reachable_states ex_segment0 [ex_segment1]))
      [[0%nat]; [1%nat]] 97
    = ["0@t0"; "0@t1"]
  ∧ encoded_forms ex_get_transitions_from true (neededBits_of 2)
      {[ 97%N := 0%N; 98%N := 1%N ]} [ex_segment0; ex_segment1]
      (segmentReachableStates
         (segment_loop ex_get_reachable_states ex_segment0 [ex_segment1]))
      [[0%nat]; [1%nat]] 97
    = ["!a0"; "!a1"].
Proof. repeat split; by vm_compute. Qed.

(** The depths of [ex_aut] are dense. *)
Lemma ex_epsilon_depths_dense : dense_depths ex_epsilon_depths.
Proof.
  intros depth. unfold ex_epsilon_depths. rewrite map_size_singleton.
  destruct (decide (depth = 0%N)) as [->|Hne].
  - rewrite lookup_singleton_eq. split; [lia|by eexists].
  - rewrite lookup_singleton_ne by done. split; [by intros [? ?]|lia].
Qed.

(** The enumeration on [ex_aut]: one combination, whose noodle is made of
    the two segments. *)
Lemma enumerate_noodles_mixed_radix_example :
  enumerate_noodles ex_unordered_iteration
    (segments_one_initial_final ex_trim ex_get_num_of_states 4 false
       [ex_segment0; ex_segment1])
    4 ex_epsilon_depths
  = Some [[ex_segment0; ex_segment1]].
Proof.
  rewrite (enumerate_noodles_mixed_radix ex_unordered_iteration
             ex_unordered_iteration_perm _ _ _ ex_epsilon_depths_dense).
  - by vm_compute.
  - by vm_compute.
  - by vm_compute.
Qed.

(** The length of the result on [ex_aut] is the number of combinations. *)
Lemma enumerate_noodles_length_example :
  ∃ noodles,
    enumerate_noodles ex_unordered_iteration
      (segments_one_initial_final ex_trim ex_get_num_of_states 4 false
         [ex_segment0; ex_segment1])
      4 ex_epsilon_depths = Some noodles
    ∧ N.of_nat (length noodles) = number_of_combinations ex_epsilon_depths.
Proof.
  destruct (enumerate_noodles_length ex_unordered_iteration
              ex_unordered_iteration_perm
              (segments_one_initial_final ex_trim ex_get_num_of_states 4 false
                 [ex_segment0; ex_segment1])
              4 ex_epsilon_depths ex_epsilon_depths_dense)
    as (noodles & Hrun & _ & Hlength & _); [by vm_compute|by vm_compute|].
  exists noodles. split; [done|]. apply Hlength.
  intros index Hindex.
  assert (number_of_combinations ex_epsilon_depths = 1%N) as Hone
    by by vm_compute.
  assert (index = 0%N) as -> by lia.
  vm_compute. by eexists.
Qed.

(** C5 fails on the 64 depths of [ex_wide_aut], each of two transitions: the
    number of combinations is 2^64, [get_num_of_permutations] wraps around to
    0, and the enumeration visits no index and returns no noodle, whatever
    the map of the segments holds. *)
Theorem enumeration_wraps_at_64_depths :
  number_of_combinations ex_wide_epsilon_depths = (2 ^ 64)%N
  ∧ get_num_of_permutations ex_unordered_iteration ex_wide_epsilon_depths = 0%N
  ∧ ∀ registry unused_state,
      enumerate_noodles ex_unordered_iteration registry unused_state
        ex_wide_epsilon_depths = Some [].
Proof.
  assert (get_num_of_permutations ex_unordered_iteration ex_wide_epsilon_depths
          = 0%N) as Hzero by by vm_compute.
  split; [by vm_compute|]. split; [exact Hzero|].
  intros registry unused_state. unfold enumerate_noodles. by rewrite Hzero.
Qed.

(** C6 fails on [ex_wide_aut]: every lookup that a combination can perform
    finds its segment and there are 2^64 combinations, but [noodlify] returns
    the empty sequence. *)
Theorem noodlify_returns_nothing_at_64_depths :
  number_of_combinations (ex_get_epsilon_depths ex_wide_aut 100) = (2 ^ 64)%N
  ∧ all_pins_registered
      (segments_one_initial_final ex_trim ex_get_num_of_states
         (ex_get_num_of_states ex_wide_aut) false
         (ex_get_segments_raw ex_wide_aut 100))
      (ex_get_num_of_states ex_wide_aut)
      (ex_get_epsilon_depths ex_wide_aut 100) = true
  ∧ length <$>
      (fst <$> noodlify ex_trim ex_get_num_of_states ex_get_reachable_states
                 ex_get_transitions_from (list N) id ex_get_segments_raw
                 ex_get_epsilon_depths ex_unordered_iteration
                 ex_wide_aut 100 ((λ d, [d]) <$> seq 0 65) [97%N; 98%N]
                 false true)
    = Some 0%nat.
Proof. split; [|split]; by vm_compute. Qed.

(** * Examples for the further properties *)

Lemma ex_locations_in_range : locations_in_range [[0%nat]; [1%nat]] 2.
Proof.
  intros locations varLoc Hlocations HvarLoc.
  repeat (apply elem_of_cons in Hlocations as [->|Hlocations]);
    try (by apply elem_of_nil in Hlocations);
    (apply elem_of_cons in HvarLoc as [->|HvarLoc];
     [lia|by apply elem_of_nil in HvarLoc]).
Qed.

Lemma ex_depths_of_aut : ex_get_epsilon_depths ex_aut 100 = ex_epsilon_depths.
Proof. by vm_compute. Qed.

Lemma ex_depths_of_aut_dense : dense_depths (ex_get_epsilon_depths ex_aut 100).
Proof. rewrite ex_depths_of_aut. exact ex_epsilon_depths_dense. Qed.

(** The epsilon transition 1 -> 2 of [ex_aut] leads from the final state of
    the first segment to the initial state of the second. *)
Lemma ex_epsilon_transitions_connect :
  epsilon_transitions_connect [ex_segment0; ex_segment1]
    (ex_get_epsilon_depths ex_aut 100).
Proof.
  rewrite ex_depths_of_aut.
  intros [|[|depth]] tran before after Htran Hbefore Hafter;
    [|discriminate Hafter..].
  injection Hbefore as <-. injection Hafter as <-.
  apply list_elem_of_singleton in Htran as ->.
  split; by apply list_elem_of_singleton.
Qed.

(** X1 on the depths of [ex_aut]: one depth of one transition. *)
Lemma get_num_of_permutations_product_witness :
  (∀ (V : Type) (m : gmap N V), ex_unordered_iteration V m ≡ₚ map_to_list m)
  ∧ (product_of_depth_sizes ex_epsilon_depths < 2 ^ 64)%N
  ∧ get_num_of_permutations ex_unordered_iteration ex_epsilon_depths
    = product_of_depth_sizes ex_epsilon_depths.
Proof.
  assert (product_of_depth_sizes ex_epsilon_depths < 2 ^ 64)%N as Hfit
    by by vm_compute.
  split; [exact ex_unordered_iteration_perm|]. split; [exact Hfit|].
  exact (proj2 (proj2 (proj2 (get_num_of_permutations_product
                                ex_unordered_iteration
                                ex_unordered_iteration_perm
                                ex_epsilon_depths))) Hfit).
Defined.

(** X2 on the two segments of [ex_aut] with a depth 0 that has no
    transition. *)
Lemma noodlify_depth_without_transitions_witness :
  locations_in_range [[0%nat]; [1%nat]] 2
  ∧ ({[ 0%N := [] ]} : gmap N (list Trans)) !! 0%N = Some []
  ∧ ∃ afaOutput,
      noodlify ex_trim ex_get_num_of_states ex_get_reachable_states
        ex_get_transitions_from (list N) id
        (λ _ _, [ex_segment0; ex_segment1]) (λ _ _, {[ 0%N := [] ]})
        ex_unordered_iteration
        ex_aut 100 [[0%nat]; [1%nat]] [97%N; 98%N] false true
      = Some ([], afaOutput).
Proof.
  assert (({[ 0%N := [] ]} : gmap N (list Trans)) !! 0%N = Some []) as Hdepth
    by reflexivity.
  split; [exact ex_locations_in_range|]. split; [exact Hdepth|].
  destruct (noodlify_depth_without_transitions ex_trim ex_get_num_of_states
              ex_get_reachable_states ex_get_transitions_from (list N) id
              (λ _ _, [ex_segment0; ex_segment1]) (λ _ _, {[ 0%N := [] ]})
              ex_unordered_iteration ex_unordered_iteration_perm
              ex_aut 100 [[0%nat]; [1%nat]] [97%N; 98%N] false true
              ex_segment0 ex_segment1 [] 0%N
              eq_refl ex_locations_in_range Hdepth)
    as (afaOutput & Hrun & _).
  by exists afaOutput.
Defined.


(** X4 on a map that has the depth 1 and lacks the depth 0. *)
Lemma enumerate_noodles_missing_depth_witness :
  (0 < N.of_nat (size ({[ 1%N := [ {| src := 1; symb := 100; tgt := 2 |} ] ]}
                         : gmap N (list Trans))))%N
  ∧ ({[ 1%N := [ {| src := 1; symb := 100; tgt := 2 |} ] ]}
       : gmap N (list Trans)) !! 0%N = None
  ∧ get_num_of_permutations ex_unordered_iteration
      {[ 1%N := [ {| src := 1; symb := 100; tgt := 2 |} ] ]} = 1%N
  ∧ enumerate_noodles ex_unordered_iteration ∅ 0
      {[ 1%N := [ {| src := 1; symb := 100; tgt := 2 |} ] ]} = None.
Proof.
  split; [by vm_compute|]. split; [reflexivity|]. split; [reflexivity|].
  apply (enumerate_noodles_missing_depth ex_unordered_iteration ∅ 0%N
           {[ 1%N := [ {| src := 1; symb := 100; tgt := 2 |} ] ]} 0%N);
    by vm_compute.
Defined.

(** X5 on [ex_aut]: the noodle of the two segments follows the epsilon
    transition 1 -> 2; its automata are the entries under the keys (4, 1) and
    (2, 4), the first segment pinned to the final state 1 and the second
    segment pinned to the initial state 2. *)
Lemma noodlify_noodles_follow_transitions_witness :
  noodle_keys (ex_get_num_of_states ex_aut)
    [ {| src := 1; symb := 100; tgt := 2 |} ] = [(4%N, 1%N); (2%N, 4%N)]
  ∧ ex_segment0 = ex_trim (pinned_copy ex_segment0 [0%N] [1%N])
  ∧ ex_segment1 = ex_trim (pinned_copy ex_segment1 [2%N] [3%N])
  ∧ ∃ noodles afaOutput,
      noodlify ex_trim ex_get_num_of_states ex_get_reachable_states
        ex_get_transitions_from (list N) id ex_get_segments_raw
        ex_get_epsilon_depths ex_unordered_iteration
        ex_aut 100 [[0%nat]; [1%nat]] [97%N; 98%N] false true
      = Some (noodles, afaOutput)
      ∧ [ex_segment0; ex_segment1] ∈ noodles
      ∧ ∃ epsilon_noodle,
          Forall2 (λ depth tran,
                     tran ∈ depth_transitions
                              (ex_get_epsilon_depths ex_aut 100) depth)
                  (index_range
                     (N.of_nat (size (ex_get_epsilon_depths ex_aut 100))))
                  epsilon_noodle
          ∧ Forall2 (λ key segment,
                       segments_one_initial_final ex_trim ex_get_num_of_states
                         (ex_get_num_of_states ex_aut) false
                         [ex_segment0; ex_segment1] !! key = Some segment
                       ∧ pinned_entry ex_trim (ex_get_num_of_states ex_aut)
                           [ex_segment0; ex_segment1] key segment
                       ∧ storable ex_get_num_of_states false segment)
                    (noodle_keys (ex_get_num_of_states ex_aut) epsilon_noodle)
                    [ex_segment0; ex_segment1].
Proof.
  split; [reflexivity|]. split; [reflexivity|]. split; [reflexivity|].
  assert (fst <$> noodlify ex_trim ex_get_num_of_states ex_get_reachable_states
                    ex_get_transitions_from (list N) id ex_get_segments_raw
                    ex_get_epsilon_depths ex_unordered_iteration
                    ex_aut 100 [[0%nat]; [1%nat]] [97%N; 98%N] false true
          = Some [[ex_segment0; ex_segment1]]) as Hfst by by vm_compute.
  destruct (noodlify ex_trim ex_get_num_of_states ex_get_reachable_states
              ex_get_transitions_from (list N) id ex_get_segments_raw
              ex_get_epsilon_depths ex_unordered_iteration
              ex_aut 100 [[0%nat]; [1%nat]] [97%N; 98%N] false true)
    as [[noodles afaOutput]|] eqn:Hrun; [|discriminate Hfst].
  injection Hfst as ->.
  exists [[ex_segment0; ex_segment1]], afaOutput.
  split; [reflexivity|]. split; [by left|].
  destruct (noodlify_noodles_follow_transitions ex_trim ex_get_num_of_states
              ex_get_reachable_states ex_get_transitions_from (list N) id
              ex_get_segments_raw ex_get_epsilon_depths ex_unordered_iteration
              ex_aut 100 [[0%nat]; [1%nat]] [97%N; 98%N] false true
              ex_segment0 ex_segment1 []
              [[ex_segment0; ex_segment1]] afaOutput [ex_segment0; ex_segment1]
              eq_refl Hrun ltac:(by left))
    as (epsilon_noodle & Hmembers & Hkeys & _).
  by exists epsilon_noodle.
Defined.

(** X6 on [ex_aut] with [include_empty] set: one combination, one noodle. *)
Lemma noodlify_keeps_every_combination_witness :
  ex_get_segments_raw ex_aut 100 = [ex_segment0; ex_segment1]
  ∧ locations_in_range [[0%nat]; [1%nat]] 2
  ∧ dense_depths (ex_get_epsilon_depths ex_aut 100)
  ∧ size (ex_get_epsilon_depths ex_aut 100) = 1%nat
  ∧ epsilon_transitions_connect [ex_segment0; ex_segment1]
      (ex_get_epsilon_depths ex_aut 100)
  ∧ ∃ noodles afaOutput,
      noodlify ex_trim ex_get_num_of_states ex_get_reachable_states
        ex_get_transitions_from (list N) id ex_get_segments_raw
        ex_get_epsilon_depths ex_unordered_iteration
        ex_aut 100 [[0%nat]; [1%nat]] [97%N; 98%N] true true
      = Some (noodles, afaOutput)
      ∧ N.of_nat (length noodles)
        = get_num_of_permutations ex_unordered_iteration
            (ex_get_epsilon_depths ex_aut 100).
Proof.
  split; [reflexivity|]. split; [exact ex_locations_in_range|].
  split; [exact ex_depths_of_aut_dense|]. split; [reflexivity|].
  split; [exact ex_epsilon_transitions_connect|].
  exact (noodlify_keeps_every_combination ex_trim ex_get_num_of_states
           ex_get_reachable_states ex_get_transitions_from (list N) id
           ex_get_segments_raw ex_get_epsilon_depths
           ex_unordered_iteration ex_unordered_iteration_perm
           ex_aut 100 [[0%nat]; [1%nat]] [97%N; 98%N] true true
           ex_segment0 ex_segment1 []
           eq_refl ex_locations_in_range ex_depths_of_aut_dense eq_refl
           ex_epsilon_transitions_connect
           (λ key segment _, or_intror eq_refl)).
Defined.

(** X12: an alphabet of three symbols gets two bits, and on track 1 the
    numbers 1 and 5 are written with the same two atoms. *)
Lemma print_remapped_injective_witness :
  (3 ≤ 2 ^ 32)%N
  ∧ (3 ≤ 2 ^ neededBits_of 3)%N
  ∧ (2 ≤ 32)%N
  ∧ (1 * 2 + 2 ≤ size_t_modulus)%N
  ∧ print_remapped true 2 (5 mod 2 ^ 2) 1 = print_remapped true 2 5 1.
Proof.
  assert (3 ≤ 2 ^ 32)%N as Hsize by by vm_compute.
  assert (2 ≤ 32)%N as Hbits by by vm_compute.
  assert (1 * 2 + 2 ≤ size_t_modulus)%N as Hfit by by vm_compute.
  split; [exact Hsize|].
  split; [exact (proj1 print_remapped_injective 3%N Hsize)|].
  split; [exact Hbits|]. split; [exact Hfit|].
  exact (proj2 (proj2 (proj2 print_remapped_injective)) 2%N 1%N 5%N Hbits Hfit).
Defined.

(** X13 on a left side of the one automaton for the word 97 with [reduce]
    set to forward. *)
Lemma noodlify_for_equation_overloads_agree_witness :
  ({[ "reduce" := "forward" ]} : gmap string string) !! "reduce"
  ∈ [Some "forward"; Some "backward"; Some "bidirectional"]
  ∧ noodlify_for_equation_ptr ex_trim ex_get_num_of_states
      ex_get_reachable_states ex_get_transitions_from (list N) id
      ex_get_segments_raw ex_get_epsilon_depths ex_unordered_iteration
      id id ex_is_lang_empty ex_concatenate ex_empty_intersection id id
      ex_from_nfas ex_add_symbols_from ex_get_next_value
      {[ 0%nat := ex_plain ]} [0%nat] ex_other [[0%nat]] false
      {[ "reduce" := "forward" ]}
    = noodlify_for_equation_ref ex_trim ex_get_num_of_states
        ex_get_reachable_states ex_get_transitions_from (list N) id
        ex_get_segments_raw ex_get_epsilon_depths ex_unordered_iteration
        id id ex_is_lang_empty ex_concatenate ex_empty_intersection id id
        ex_from_nfas ex_add_symbols_from ex_get_next_value
        {[ 0%nat := ex_plain ]} [0%nat] ex_other [[0%nat]] false
        {[ "reduce" := "forward" ]}.
Proof.
  assert (({[ "reduce" := "forward" ]} : gmap string string) !! "reduce"
          ∈ [Some "forward"; Some "backward"; Some "bidirectional"]) as Hreduce.
  { rewrite lookup_singleton_eq. by left. }
  split; [exact Hreduce|].
  exact (proj1 (noodlify_for_equation_overloads_agree ex_trim
                  ex_get_num_of_states ex_get_reachable_states
                  ex_get_transitions_from (list N) id ex_get_segments_raw
                  ex_get_epsilon_depths ex_unordered_iteration
                  id id ex_is_lang_empty ex_concatenate ex_empty_intersection
                  id id ex_from_nfas ex_add_symbols_from ex_get_next_value
                  {[ 0%nat := ex_plain ]} [0%nat] ex_other [[0%nat]] false
                  {[ "reduce" := "forward" ]})
               Hreduce).
Defined.

(** X14 on a right side without states. *)
Lemma noodlify_for_equation_empty_side_witness :
  ex_is_lang_empty
    {| initialstates := []; finalstates := []; transitionrelation := [] |}
  = true
  ∧ (noodlify_for_equation_ref ex_trim ex_get_num_of_states
       ex_get_reachable_states ex_get_transitions_from (list N) id
       ex_get_segments_raw ex_get_epsilon_depths ex_unordered_iteration
       id id ex_is_lang_empty ex_concatenate ex_empty_intersection id id
       ex_from_nfas ex_add_symbols_from ex_get_next_value
       {[ 0%nat := ex_plain ]} [0%nat]
       {| initialstates := []; finalstates := []; transitionrelation := [] |}
       [[0%nat]] false ∅).2
    = Some ([], "").
Proof.
  split; [reflexivity|].
  exact (proj1 (proj2 (proj2 (noodlify_for_equation_empty_side ex_trim
                                ex_get_num_of_states ex_get_reachable_states
                                ex_get_transitions_from (list N) id
                                ex_get_segments_raw ex_get_epsilon_depths
                                ex_unordered_iteration
                                id id ex_is_lang_empty ex_concatenate
                                ex_empty_intersection id id ex_from_nfas
                                ex_add_symbols_from ex_get_next_value
                                {[ 0%nat := ex_plain ]}
                                {| initialstates := []; finalstates := [];
                                   transitionrelation := [] |}
                                [[0%nat]] false ∅))
                  [0%nat] eq_refl)).
Defined.


(** X16 on [ex_aut]: the combination of the epsilon transition 1 -> 2 is
    visited, and its noodle of the two segments is returned. *)
Lemma noodlify_visits_every_combination_witness :
  ex_get_segments_raw ex_aut 100 = [ex_segment0; ex_segment1]
  ∧ locations_in_range [[0%nat]; [1%nat]] 2
  ∧ dense_depths (ex_get_epsilon_depths ex_aut 100)
  ∧ (number_of_combinations (ex_get_epsilon_depths ex_aut 100) < 2 ^ 64)%N
  ∧ ∃ noodles afaOutput,
      noodlify ex_trim ex_get_num_of_states ex_get_reachable_states
        ex_get_transitions_from (list N) id ex_get_segments_raw
        ex_get_epsilon_depths ex_unordered_iteration
        ex_aut 100 [[0%nat]; [1%nat]] [97%N; 98%N] false true
      = Some (noodles, afaOutput)
      ∧ [ex_segment0; ex_segment1] ∈ noodles.
Proof.
  assert (number_of_combinations (ex_get_epsilon_depths ex_aut 100) < 2 ^ 64)%N
    as Hfit by by vm_compute.
  split; [reflexivity|]. split; [exact ex_locations_in_range|].
  split; [exact ex_depths_of_aut_dense|]. split; [exact Hfit|].
  apply (noodlify_visits_every_combination ex_trim ex_get_num_of_states
           ex_get_reachable_states ex_get_transitions_from (list N) id
           ex_get_segments_raw ex_get_epsilon_depths
           ex_unordered_iteration ex_unordered_iteration_perm
           ex_aut 100 [[0%nat]; [1%nat]] [97%N; 98%N] false true
           ex_segment0 ex_segment1 []
           [ {| src := 1; symb := 100; tgt := 2 |} ]
           [ex_segment0; ex_segment1]
           eq_refl ex_locations_in_range ex_depths_of_aut_dense).
  - by vm_compute.
  - exact Hfit.
  - rewrite ex_depths_of_aut. repeat constructor.
  - repeat constructor.
Defined.

(** The depths of [ex_two_depths] are 0 and 1, and the transitions of each
    are pairwise distinct. *)
Lemma ex_two_depths_dense : dense_depths ex_two_depths.
Proof.
  assert (size ex_two_depths = 2%nat) as Hsize by reflexivity.
  intros depth. rewrite Hsize. unfold ex_two_depths.
  destruct (decide (depth = 0%N)) as [->|Hzero].
  { rewrite lookup_insert_eq. split; [lia|by eexists]. }
  rewrite lookup_insert_ne by done.
  destruct (decide (depth = 1%N)) as [->|Hone].
  { rewrite lookup_singleton_eq. split; [lia|by eexists]. }
  rewrite lookup_singleton_ne by done. split; [by intros [? ?]|lia].
Qed.

Lemma ex_two_depths_distinct depth :
  NoDup (depth_transitions ex_two_depths depth).
Proof.
  unfold depth_transitions, ex_two_depths.
  destruct (decide (depth = 0%N)) as [->|Hzero].
  { rewrite lookup_insert_eq. cbn [default]. unfold id.
    rewrite !NoDup_cons, !elem_of_cons, !elem_of_nil.
    repeat split; try apply NoDup_nil_2; intros Hin;
      repeat (destruct Hin as [Hin|Hin]; [discriminate Hin|]); done. }
  rewrite lookup_insert_ne by done.
  destruct (decide (depth = 1%N)) as [->|Hone].
  { rewrite lookup_singleton_eq. cbn [default]. unfold id.
    rewrite !NoDup_cons, !elem_of_cons, !elem_of_nil.
    repeat split; try apply NoDup_nil_2; intros Hin;
      repeat (destruct Hin as [Hin|Hin]; [discriminate Hin|]); done. }
  rewrite lookup_singleton_ne by done. apply NoDup_nil_2.
Qed.

(** X17 on [ex_two_depths], which has six combinations: the index 1 takes
    the second transition of depth 0 and the first of depth 1, the index 4
    takes the first transition of depth 0 and the third of depth 1. *)
Lemma enumeration_without_repetition_witness :
  dense_depths ex_two_depths
  ∧ (∀ depth, NoDup (depth_transitions ex_two_depths depth))
  ∧ number_of_combinations ex_two_depths = 6%N
  ∧ choose_epsilon_noodle ex_two_depths
      (index_range (N.of_nat (size ex_two_depths))) 1
    = Some [ {| src := 2; symb := 100; tgt := 3 |};
             {| src := 4; symb := 100; tgt := 6 |} ]
  ∧ choose_epsilon_noodle ex_two_depths
      (index_range (N.of_nat (size ex_two_depths))) 4
    = Some [ {| src := 1; symb := 100; tgt := 3 |};
             {| src := 5; symb := 100; tgt := 7 |} ]
  ∧ choose_epsilon_noodle ex_two_depths
      (index_range (N.of_nat (size ex_two_depths))) 1
    ≠ choose_epsilon_noodle ex_two_depths
        (index_range (N.of_nat (size ex_two_depths))) 4.
Proof.
  split; [exact ex_two_depths_dense|]. split; [exact ex_two_depths_distinct|].
  split; [reflexivity|]. split; [reflexivity|]. split; [reflexivity|].
  apply (enumeration_without_repetition ex_two_depths 1 4
           ex_two_depths_dense ex_two_depths_distinct);
    by vm_compute.
Defined.
